(** * A shallow embedding of the historical map viewer

    The development follows the TypeScript sources:
    - [types.ts]                       -> Section "Types"
    - [services/geminiService.ts]      -> Module [GeminiService]
    - [components/Timeline.tsx]        -> Module [Timeline]
    - [components/Map.tsx]             -> Module [InteractiveMap]
    - [App.tsx]                        -> Module [App]
    - [components/VideoGenerator.tsx]  -> Modules [Playback] and [Recording]
    - [components/InfoPanel.tsx]       -> Module [InfoPanel]
    - [components/OfflineManager.tsx]  -> Module [OfflineManager]
    - the handlers of Timeline.tsx     -> Module [TimelineComponent]
    - the year labels                  -> Module [Format]
    - overlapping calls of the service -> Module [GeminiServiceAsync]
    - the pending capture request      -> Module [RecordingAsync]

    JavaScript numbers that hold years are modelled as [Z]; objects that are
    shared by reference live in an explicit heap; every [await] of the source
    is a point where the model hands control back to the scheduler. *)

From stdpp Require Import gmap strings list pretty.

Local Open Scope Z_scope.

(** ** Types (types.ts) *)

Record HistoricalRegime := {
  name : string;
  color : string;
  isoCodes : list string;
  events : list string
}.

Record HistoricalData := {
  year : Z;
  summary : string;
  regimes : list HistoricalRegime
}.

(** Only the members of a GeoJSON feature that the components read:
    [d.id] and [d.properties.name]. *)
Record GeoJsonFeature := {
  id : string;
  properties_name : string
}.

(** ** services/geminiService.ts *)

Module GeminiService.

(** What [await ai.models.generateContent(...)] can do: reject, or resolve
    to a response whose [text] is a string or [undefined]. *)
Inductive ApiOutcome :=
| Rejected
| Response (text : option string).

(** JavaScript truthiness of [response.text]. *)
Definition truthy (text : option string) : option string :=
  match text with
  | Some s => if decide (s = EmptyString) then None else Some s
  | None => None
  end.

(** The module-level state. Snapshots are objects, so the cache maps a year
    to a reference into [heap]; [calls] logs the years for which the
    external service was invoked, oldest first. *)
Record World := {
  heap : list HistoricalData;
  cache : gmap Z nat;
  calls : list Z
}.

Definition alloc (d : HistoricalData) (w : World) : nat * World :=
  (length (heap w),
   {| heap := heap w ++ [d]; cache := cache w; calls := calls w |}).

Definition cache_set (y : Z) (l : nat) (w : World) : World :=
  {| heap := heap w; cache := <[y := l]> (cache w); calls := calls w |}.

Definition log_call (y : Z) (w : World) : World :=
  {| heap := heap w; cache := cache w; calls := calls w ++ [y] |}.

Definition unavailable : string :=
  "该时期数据暂不可用，请尝试其他年份。".

Definition fallback (y : Z) : HistoricalData :=
  {| year := y; summary := unavailable; regimes := [] |}.

Section Service.
(** The external service is an oracle. It is not deterministic, so it is
    indexed by the number of invocations made before; the prompt is a
    function of the year alone, so the year stands for it. *)
Variable generateContent : nat → Z → ApiOutcome.
(** [JSON.parse(text) as HistoricalData]: [None] is a thrown SyntaxError;
    the cast is unchecked in the source and the shape is trusted here. *)
Variable JSON_parse : string → option HistoricalData.

(** The body of the [try] block once the awaited call has settled with
    outcome [r]; [None] stands for a thrown exception (a rejected call, a
    SyntaxError of [JSON.parse], or the explicit "No data returned"). *)
Definition try_block (y : Z) (r : ApiOutcome) (w : World)
  : option (nat * World) :=
  match r with
  | Rejected => None
  | Response text =>
      match truthy text with
      | Some s =>
          match JSON_parse s with
          | Some data =>
              let data := {| year := y; summary := summary data;
                             regimes := regimes data |} in
              let '(l, w) := alloc data w in
              Some (l, cache_set y l w)
          | None => None
          end
      | None => None
      end
  end.

Definition fetchHistoricalContext (y : Z) (w : World) : nat * World :=
  match cache w !! y with
  | Some l => (l, w)
  | None =>
      let r := generateContent (length (calls w)) y in
      let w := log_call y w in
      match try_block y r w with
      | Some res => res
      | None => alloc (fallback y) w
      end
  end.

(** The attempt made for [y] in world [w] fails. *)
Definition fetch_fails (y : Z) (w : World) : Prop :=
  match generateContent (length (calls w)) y with
  | Rejected => True
  | Response text =>
      match truthy text with
      | Some s => JSON_parse s = None
      | None => True
      end
  end.

(** The external service never fails in this session. *)
Definition reliable : Prop := ∀ y w, ¬ fetch_fails y w.

(** A session: successive calls for the years [ys], each awaited before the
    next is made. *)
Definition session (ys : list Z) (w : World) : World :=
  foldl (λ w y, (fetchHistoricalContext y w).2) w ys.

End Service.

(** Number of invocations of the external service for year [y]. *)
Definition invocations (y : Z) (w : World) : nat :=
  length (filter (λ z, z = y) (calls w)).

(** The module as loaded: an empty cache, no call made. *)
Definition loaded : World := {| heap := []; cache := ∅; calls := [] |}.

(** With a service that does not fail, a year that is not in the cache was
    never asked of the service, and no year was asked more than once. *)
Definition once_each (w : World) : Prop :=
  ∀ y, (cache w !! y = None → invocations y w = O) ∧ (invocations y w ≤ 1)%nat.

End GeminiService.

(** ** components/Timeline.tsx *)

Module Timeline.

(** [commitInput]: the value handed to [setLocalYear], [onChange] and
    [onCommit]. The argument is [None] when the number is [NaN]. *)
Definition commitInput (min max : Z) (val : option Z) : Z :=
  let finalVal := match val with Some v => v | None => min end in
  let finalVal := if finalVal <? min then min else finalVal in
  let finalVal := if finalVal >? max then max else finalVal in
  if decide (finalVal = 0) then 1 else finalVal.

End Timeline.

(** ** components/Map.tsx *)

Module InteractiveMap.

(** The values of [countryColorMap] are objects [{ regime }]. *)
Record Entry := { regime : HistoricalRegime }.

(** [regime.isoCodes.forEach(iso => map.set(iso, { regime }))] *)
Definition set_codes (r : HistoricalRegime) (m : gmap string Entry)
  : gmap string Entry :=
  foldl (λ m iso, <[iso := {| regime := r |}]> m) m (isoCodes r).

(** [historicalData.regimes.forEach(...)] over a fresh map; the empty map
    when [historicalData] is [null]. *)
Definition countryColorMap (historicalData : option HistoricalData)
  : gmap string Entry :=
  match historicalData with
  | None => ∅
  | Some d => foldl (λ m r, set_codes r m) ∅ (regimes d)
  end.

(** Where a click lands: on the path of a feature, or on the svg itself. *)
Inductive Target :=
| OnFeature (d : GeoJsonFeature)
| OnBackground.

(** The arguments of one [onRegimeClick] call. *)
Definition Selection : Type := option HistoricalRegime * string.

(** The click handler of a path. *)
Definition path_click (m : gmap string Entry) (d : GeoJsonFeature) : Selection :=
  let iso := id d in
  let entry := m !! iso in
  (match entry with Some e => Some (regime e) | None => None end,
   properties_name d).

(** The click handler of the svg. *)
Definition svg_click : Selection := (None, "Ocean").

(** The calls of [onRegimeClick] made by one click. The path handler calls
    [event.stopPropagation()], so the svg handler does not run after it. *)
Definition click (m : gmap string Entry) (t : Target) : list Selection :=
  match t with
  | OnFeature d => [path_click m d]
  | OnBackground => [svg_click]
  end.

(** The [fill] of a path. *)
Definition fill (m : gmap string Entry) (d : GeoJsonFeature) : string :=
  match m !! id d with
  | Some e => color (regime e)
  | None => "#cbd5e1"
  end.

End InteractiveMap.

(** ** App.tsx *)

Module App.

Record State := {
  currentYear : Z;
  historicalData : option HistoricalData;
  loading : bool;
  error : option string;
  selectedRegime : option HistoricalRegime;
  selectedAreaName : option string;
  (** the years passed to [fetchHistoricalContext] so far, oldest first *)
  fetches : list Z
}.

(** How the awaited [fetchHistoricalContext(year)] settles. *)
Inductive Settled :=
| Fulfilled (data : HistoricalData)
| Threw.

(** [loadData] up to its [await]: the four state updates, the reset of the
    selection, and the call of [fetchHistoricalContext]. *)
Definition loadData_begin (y : Z) (s : State) : State :=
  {| currentYear := y;
     historicalData := historicalData s;
     loading := true;
     error := None;
     selectedRegime := None;
     selectedAreaName := None;
     fetches := fetches s ++ [y] |}.

(** [loadData] after its [await]: [try] / [catch] / [finally]. *)
Definition loadData_resume (r : Settled) (s : State) : State :=
  {| currentYear := currentYear s;
     historicalData :=
       match r with Fulfilled d => Some d | Threw => historicalData s end;
     loading := false;
     error :=
       match r with
       | Fulfilled _ => error s
       | Threw => Some "生成历史数据失败，请检查 API 密钥或网络连接。"
       end;
     selectedRegime := selectedRegime s;
     selectedAreaName := selectedAreaName s;
     fetches := fetches s |}.

Definition setCurrentYear (y : Z) (s : State) : State :=
  {| currentYear := y;
     historicalData := historicalData s;
     loading := loading s;
     error := error s;
     selectedRegime := selectedRegime s;
     selectedAreaName := selectedAreaName s;
     fetches := fetches s |}.

Definition handleTimelineCommit (y : Z) (s : State) : State :=
  loadData_begin y (setCurrentYear y s).

Definition handleTimelineChange (y : Z) (s : State) : State :=
  setCurrentYear y s.

Definition handleRegimeClick (sel : InteractiveMap.Selection) (s : State) : State :=
  {| currentYear := currentYear s;
     historicalData := historicalData s;
     loading := loading s;
     error := error s;
     selectedRegime := sel.1;
     selectedAreaName := Some sel.2;
     fetches := fetches s |}.

(** What the user and the scheduler can do to the component. *)
Inductive Event :=
| TimelineCommit (val : option Z)
| PlaybackYear (y : Z)
| MapClick (t : InteractiveMap.Target)
| FetchSettles (r : Settled).

(** The timeline is mounted with [min = -2000] and [max = 2000], and its
    [commitInput] calls [onChange] and then [onCommit]; the video
    generator is mounted with [onYearChange = loadData]; the map is mounted
    with the current [historicalData]. *)
Definition step (e : Event) (s : State) : State :=
  match e with
  | TimelineCommit val =>
      let finalVal := Timeline.commitInput (-2000) 2000 val in
      handleTimelineCommit finalVal (handleTimelineChange finalVal s)
  | PlaybackYear y => loadData_begin y s
  | MapClick t =>
      foldl (λ s sel, handleRegimeClick sel s) s
        (InteractiveMap.click (InteractiveMap.countryColorMap (historicalData s)) t)
  | FetchSettles r => loadData_resume r s
  end.

Definition run (es : list Event) (s : State) : State :=
  foldl (λ s e, step e s) s es.

(** A click on the map. *)
Definition is_map_click (ev : Event) : bool :=
  match ev with MapClick _ => true | _ => false end.

(** Nothing is selected. *)
Definition no_selection (s : State) : Prop :=
  selectedRegime s = None ∧ selectedAreaName s = None.

End App.

(** ** components/VideoGenerator.tsx: playback *)

Module Playback.

(** The two [await]s of the loop body of [handlePlay]. *)
Inductive Pc :=
| AwaitLoad    (* await onYearChange(yearToLoad) *)
| AwaitDelay.  (* await new Promise(r => setTimeout(r, 2000)) *)

(** One suspended activation of [handlePlay]: where it waits, its local
    [yearToLoad], and the [endYear] and [step] its closure captured. *)
Record Loop := {
  pc : Pc;
  yearToLoad : Z;
  loop_endYear : Z;
  loop_step : Z
}.

Record State := {
  startYear : Z;
  endYear : Z;
  step : Z;
  isPlaying : bool;
  isPlayingRef : bool;
  (** the activations of [handlePlay] that are suspended at an [await] *)
  loops : list Loop;
  (** the arguments of the calls of [onYearChange], oldest first *)
  notified : list Z;
  (** the messages shown with [alert], oldest first *)
  alerts : list string
}.

Definition set_playing (b : bool) (s : State) : State :=
  {| startYear := startYear s; endYear := endYear s; step := step s;
     isPlaying := b; isPlayingRef := b;
     loops := loops s; notified := notified s; alerts := alerts s |}.

Definition set_loops (ls : list Loop) (s : State) : State :=
  {| startYear := startYear s; endYear := endYear s; step := step s;
     isPlaying := isPlaying s; isPlayingRef := isPlayingRef s;
     loops := ls; notified := notified s; alerts := alerts s |}.

Definition onYearChange (y : Z) (s : State) : State :=
  {| startYear := startYear s; endYear := endYear s; step := step s;
     isPlaying := isPlaying s; isPlayingRef := isPlayingRef s;
     loops := loops s; notified := notified s ++ [y]; alerts := alerts s |}.

Definition alert (msg : string) (s : State) : State :=
  {| startYear := startYear s; endYear := endYear s; step := step s;
     isPlaying := isPlaying s; isPlayingRef := isPlayingRef s;
     loops := loops s; notified := notified s; alerts := alerts s ++ [msg] |}.

(** The [finally] block. *)
Definition finally (s : State) : State := set_playing false s.

(** The test of the [while] with [yearToLoad = y], and, when it holds, the
    call [onYearChange(y)] up to the suspension of the loop. The result is
    the suspended loop, or [None] when the activation has returned. *)
Definition iterate (y e st : Z) (s : State) : option Loop * State :=
  if isPlayingRef s && (y <=? e) then
    (Some {| pc := AwaitLoad; yearToLoad := y; loop_endYear := e; loop_step := st |},
     onYearChange y s)
  else (None, finally s).

(** The loop [l] is resumed. [ok] tells whether the awaited promise was
    fulfilled; the timer promise of the delay is always fulfilled, so the
    flag is ignored there. A rejection lands in [catch], then [finally]. *)
Definition resume (ok : bool) (l : Loop) (s : State) : option Loop * State :=
  match pc l with
  | AwaitLoad =>
      if ok then
        if negb (isPlayingRef s) then (None, finally s)
        else (Some {| pc := AwaitDelay; yearToLoad := yearToLoad l;
                      loop_endYear := loop_endYear l; loop_step := loop_step l |}, s)
      else (None, finally s)
  | AwaitDelay =>
      if negb (isPlayingRef s) then (None, finally s)
      else iterate (yearToLoad l + loop_step l) (loop_endYear l) (loop_step l) s
  end.

Definition errorMessage : string := "起始年份不能大于结束年份".

(** [handlePlay], from the click up to its first [await] or its return. *)
Definition handlePlay (s : State) : State :=
  if isPlayingRef s then set_playing false s
  else
    let s := set_playing true s in
    let yearToLoad := startYear s in
    if yearToLoad >? endYear s then set_playing false (alert errorMessage s)
    else
      match iterate yearToLoad (endYear s) (step s) s with
      | (Some l, s) => set_loops (loops s ++ [l]) s
      | (None, s) => s
      end.

(** The scheduler: a click on the play button, or the promise awaited by
    the [i]-th suspended loop settles. *)
Inductive Event :=
| Click
| Settle (i : nat) (ok : bool).

Definition exec (ev : Event) (s : State) : State :=
  match ev with
  | Click => handlePlay s
  | Settle i ok =>
      match loops s !! i with
      | None => s
      | Some l =>
          match resume ok l s with
          | (Some l', s') => set_loops (<[i := l']> (loops s')) s'
          | (None, s') => set_loops (delete i (loops s')) s'
          end
      end
  end.

Definition run (evs : list Event) (s : State) : State :=
  foldl (λ s ev, exec ev s) s evs.

(** The component as mounted, with the three inputs set. *)
Definition mounted (startYear endYear step : Z) : State :=
  {| startYear := startYear; endYear := endYear; step := step;
     isPlaying := false; isPlayingRef := false;
     loops := []; notified := []; alerts := [] |}.

Definition is_settle (ev : Event) : bool :=
  match ev with Click => false | Settle _ _ => true end.

(** The [n] years [y], [y + st], [y + 2 st], ... *)
Fixpoint visited (y st : Z) (n : nat) : list Z :=
  match n with
  | O => []
  | S n => y :: visited (y + st) st n
  end.

(** A single loop suspended at its load of year [y]. *)
Definition loading_year (y : Z) (s : State) : Prop :=
  isPlayingRef s = true ∧
  loops s = [ {| pc := AwaitLoad; yearToLoad := y;
                 loop_endYear := endYear s; loop_step := step s |} ].

End Playback.

(** ** components/VideoGenerator.tsx: recording *)

Module Recording.

(** [MediaRecorder.state]; [pause()] is never called, so "paused" is never
    entered. *)
Inductive RecorderState := inactive | recording.

Record State := {
  isRecording : bool;
  (** [mediaRecorderRef.current]: [null], or the recorder with its state *)
  mediaRecorder : option RecorderState;
  (** [recordedChunksRef.current], as the sizes of the blobs *)
  recordedChunks : list nat;
  (** 'stop' events the platform has queued and not yet dispatched *)
  stopQueued : nat;
  (** the artifacts downloaded so far, each the chunks of its blob *)
  downloads : list (list nat);
  (** how often [stream.getTracks().forEach(track => track.stop())] ran *)
  tracksReleased : nat;
  alerts : list string
}.

(** [MediaRecorder.stop()] of the platform on a recorder that is not
    inactive: the state becomes inactive and a 'stop' event is queued. *)
Definition recorder_stop (s : State) : State :=
  {| isRecording := isRecording s;
     mediaRecorder := Some inactive;
     recordedChunks := recordedChunks s;
     stopQueued := S (stopQueued s);
     downloads := downloads s;
     tracksReleased := tracksReleased s;
     alerts := alerts s |}.

(** The body shared by [handleStopRecording] and the [onended] handler:
    [if (ref.current && ref.current.state !== 'inactive') ref.current.stop()] *)
Definition stop_if_active (s : State) : State :=
  match mediaRecorder s with
  | Some recording => recorder_stop s
  | Some inactive | None => s
  end.

Definition handleStopRecording (s : State) : State := stop_if_active s.

(** [stream.getVideoTracks()[0].onended] *)
Definition onended (s : State) : State := stop_if_active s.

(** [recorder.onstop] *)
Definition onstop (s : State) : State :=
  {| isRecording := false;
     mediaRecorder := mediaRecorder s;
     recordedChunks := [];
     stopQueued := stopQueued s;
     downloads := downloads s ++ [recordedChunks s];
     tracksReleased := S (tracksReleased s);
     alerts := alerts s |}.

(** [recorder.ondataavailable] *)
Definition ondataavailable (size : nat) (s : State) : State :=
  {| isRecording := isRecording s;
     mediaRecorder := mediaRecorder s;
     recordedChunks :=
       if (0 <? size)%nat then recordedChunks s ++ [size] else recordedChunks s;
     stopQueued := stopQueued s;
     downloads := downloads s;
     tracksReleased := tracksReleased s;
     alerts := alerts s |}.

(** [handleStartRecording]; [granted] tells whether [getDisplayMedia]
    resolved. *)
Definition handleStartRecording (granted : bool) (s : State) : State :=
  if granted then
    {| isRecording := true;
       mediaRecorder := Some recording;
       recordedChunks := recordedChunks s;
       stopQueued := stopQueued s;
       downloads := downloads s;
       tracksReleased := tracksReleased s;
       alerts := alerts s |}
  else
    {| isRecording := isRecording s;
       mediaRecorder := mediaRecorder s;
       recordedChunks := recordedChunks s;
       stopQueued := stopQueued s;
       downloads := downloads s;
       tracksReleased := tracksReleased s;
       alerts := alerts s ++ ["无法启动录制，请确保您授予了屏幕录制权限。"] |}.

Inductive Event :=
| StartRecording (granted : bool)  (* handleStartRecording *)
| StopRecording                    (* handleStopRecording *)
| DataAvailable (size : nat)       (* the platform delivers a chunk *)
| TrackEnded                       (* "stop sharing": 'ended' on the track *)
| TracksAllEnded                   (* the recorder notices its tracks ended *)
| DispatchStop.                    (* a queued 'stop' event is dispatched *)

(** [onClick={isRecording ? handleStopRecording : handleStartRecording}] *)
Definition button (granted : bool) (s : State) : Event :=
  if isRecording s then StopRecording else StartRecording granted.

Definition exec (ev : Event) (s : State) : State :=
  match ev with
  | StartRecording granted => handleStartRecording granted s
  | StopRecording => handleStopRecording s
  | DataAvailable size => ondataavailable size s
  | TrackEnded => onended s
  | TracksAllEnded =>
      match mediaRecorder s with
      | Some recording => recorder_stop s
      | Some inactive | None => s
      end
  | DispatchStop =>
      match stopQueued s with
      | O => s
      | S n =>
          onstop {| isRecording := isRecording s;
                    mediaRecorder := mediaRecorder s;
                    recordedChunks := recordedChunks s;
                    stopQueued := n;
                    downloads := downloads s;
                    tracksReleased := tracksReleased s;
                    alerts := alerts s |}
      end
  end.

Definition run (evs : list Event) (s : State) : State :=
  foldl (λ s ev, exec ev s) s evs.

(** No recording is in progress: the button shows "record", the recorder
    (if any) is inactive and its 'stop' event has been dispatched. *)
Definition idle (s : State) : Prop :=
  isRecording s = false ∧ mediaRecorder s ≠ Some recording ∧ stopQueued s = O.

(** The component as mounted. *)
Definition mounted : State :=
  {| isRecording := false; mediaRecorder := None; recordedChunks := [];
     stopQueued := O; downloads := []; tracksReleased := O; alerts := [] |}.

Definition is_start (ev : Event) : bool :=
  match ev with StartRecording _ => true | _ => false end.

(** A request to stop: manual, or raised by the platform. *)
Definition is_stop_request (ev : Event) : bool :=
  match ev with
  | StopRecording | TrackEnded | TracksAllEnded => true
  | _ => false
  end.

(** 1 while the recorder records, 0 otherwise. *)
Definition live (s : State) : nat :=
  match mediaRecorder s with Some recording => 1 | _ => 0 end.

(** The accounting of one recording that was started when [d0] artifacts
    had been downloaded and the tracks had been released [r0] times: the
    recording is still running, or its 'stop' event is queued, or its
    artifact has been downloaded, and exactly one of the three; the tracks
    were released as often as an artifact was downloaded; the button shows
    "stop" until the artifact is downloaded. *)
Definition accounted (d0 r0 : nat) (t : State) : Prop :=
  (length (downloads t) + stopQueued t + live t = d0 + 1)%nat ∧
  (tracksReleased t + d0 = r0 + length (downloads t))%nat ∧
  (d0 ≤ length (downloads t))%nat ∧
  isRecording t = negb (d0 <? length (downloads t))%nat.

End Recording.

(** ** Year labels *)

Module Format.

(** The label built in four places ([formatYear] of App.tsx and
    InfoPanel.tsx, [formatYearDisplay] of Timeline.tsx, [yearString] of
    geminiService.ts):
    [year < 0 ? `公元前 ${Math.abs(year)}` : `公元 ${year}`].
    An integer is printed in decimal, as JavaScript does for integers below
    10^21. *)
Definition formatYear (year : Z) : string :=
  if year <? 0 then "公元前 " +:+ pretty (Z.abs year)
  else "公元 " +:+ pretty year.

End Format.

(** ** components/InfoPanel.tsx *)

Module InfoPanel.

(** What the detail box says below its title. *)
Inductive Body :=
| Events (heading : string) (events : list string)  (* the list of events *)
| NoEvents (heading : string)                       (* the "no events" line *)
| Unclassified.                                     (* no owning regime *)

(** The detail box: the colour dot (only with a regime), title and body. *)
Record Detail := {
  swatch : option string;
  title : string;
  body : Body
}.

(** The overview box: heading, summary, and the legend of colour and name. *)
Record Overview := {
  heading : string;
  text : string;
  legend : list (string * string)
}.

Inductive View :=
| Skeleton                                   (* the loading placeholder *)
| Nothing                                    (* [return null] *)
| Panel (detail : option Detail) (overview : Overview).

(** JavaScript truthiness of a [string | null]. *)
Definition truthy (a : option string) : bool :=
  match a with
  | Some s => negb (bool_decide (s = EmptyString))
  | None => false
  end.

(** [(selectedRegime || selectedAreaName) && selectedAreaName !== "Ocean"] *)
Definition shows_detail (selectedRegime : option HistoricalRegime)
    (selectedAreaName : option string) : bool :=
  (bool_decide (is_Some selectedRegime) || truthy selectedAreaName)
  && negb (bool_decide (selectedAreaName = Some "Ocean")).

Definition detail_box (data : HistoricalData)
    (selectedRegime : option HistoricalRegime) (selectedAreaName : option string)
  : Detail :=
  {| swatch := color <$> selectedRegime;
     title :=
       match selectedRegime with
       | Some r => name r
       | None => default EmptyString selectedAreaName
       end;
     body :=
       match selectedRegime with
       | Some r =>
           if (0 <? length (events r))%nat
           then Events (Format.formatYear (year data)) (events r)
           else NoEvents (Format.formatYear (year data))
       | None => Unclassified
       end |}.

Definition overview_box (data : HistoricalData) : Overview :=
  {| heading := Format.formatYear (year data);
     text := summary data;
     legend := (λ r, (color r, name r)) <$> regimes data |}.

(** The component. *)
Definition render (data : option HistoricalData) (loading : bool)
    (selectedRegime : option HistoricalRegime) (selectedAreaName : option string)
  : View :=
  if loading then Skeleton
  else
    match data with
    | None => Nothing
    | Some d =>
        Panel
          (if shows_detail selectedRegime selectedAreaName
           then Some (detail_box d selectedRegime selectedAreaName)
           else None)
          (overview_box d)
    end.

(** The panel as the application mounts it. *)
Definition of_app (s : App.State) : View :=
  render (App.historicalData s) (App.loading s)
    (App.selectedRegime s) (App.selectedAreaName s).

(** The detail box of a view, if it has one. *)
Definition detail_of (v : View) : option Detail :=
  match v with
  | Panel detail _ => detail
  | Skeleton | Nothing => None
  end.

End InfoPanel.

(** ** components/OfflineManager.tsx *)

Module OfflineManager.

(** The two [await]s of [handleDownload]. *)
Inductive Pc :=
| AwaitFetch   (* await fetch(url) *)
| AwaitBlob.   (* await mapRes.blob() *)

Record State := {
  downloading : bool;
  (** the activations of [handleDownload] suspended at an [await] *)
  pending : list Pc;
  (** how often the file was handed to the browser with [a.click()] *)
  saved : nat;
  alerts : list string
}.

Definition succeeded : string :=
  "下载成功！
请将下载的 'world.geojson' 文件放置在您项目的 public 文件夹或根目录下，以便离线加载地图。".

Definition failed : string := "下载失败，请检查网络连接。".

(** How an awaited promise settles; [ok] is [mapRes.ok] for the fetch and
    is not looked at for the blob. *)
Inductive Settled :=
| Fulfils (ok : bool)
| Rejects.

(** [handleDownload] up to its first [await]. *)
Definition handleDownload (s : State) : State :=
  {| downloading := true; pending := pending s ++ [AwaitFetch];
     saved := saved s; alerts := alerts s |}.

(** [catch] and [finally]. *)
Definition fail (rest : list Pc) (s : State) : State :=
  {| downloading := false; pending := rest;
     saved := saved s; alerts := alerts s ++ [failed] |}.

(** The rest of the [try] block, then [finally]. *)
Definition save (rest : list Pc) (s : State) : State :=
  {| downloading := false; pending := rest;
     saved := S (saved s); alerts := alerts s ++ [succeeded] |}.

Inductive Event :=
| Click                            (* the button *)
| Settle (i : nat) (r : Settled).  (* the promise of activation [i] settles *)

Definition exec (ev : Event) (s : State) : State :=
  match ev with
  | Click =>
      (* [disabled={downloading}] *)
      if downloading s then s else handleDownload s
  | Settle i r =>
      match pending s !! i with
      | None => s
      | Some AwaitFetch =>
          match r with
          | Fulfils true =>
              {| downloading := downloading s;
                 pending := <[i := AwaitBlob]> (pending s);
                 saved := saved s; alerts := alerts s |}
          | Fulfils false | Rejects => fail (delete i (pending s)) s
          end
      | Some AwaitBlob =>
          match r with
          | Fulfils _ => save (delete i (pending s)) s
          | Rejects => fail (delete i (pending s)) s
          end
      end
  end.

Definition run (evs : list Event) (s : State) : State :=
  foldl (λ s ev, exec ev s) s evs.

Definition mounted : State :=
  {| downloading := false; pending := []; saved := O; alerts := [] |}.

End OfflineManager.

(** ** components/Timeline.tsx: the component *)

Module TimelineComponent.

Record State := {
  localYear : Z;
  inputValue : string;
  (** the arguments of the calls of [onChange] and of [onCommit], oldest
      first *)
  changes : list Z;
  commits : list Z
}.

Inductive Event :=
| SliderChange (val : Z)          (* the slider moves to [val] *)
| SliderCommit                    (* mouse up or touch end on the slider *)
| KeyUp (key : string)            (* a key is released on the slider *)
| InputChange (text : string)     (* the text of the number input changes *)
| InputBlur                       (* the number input loses the focus *)
| InputKeyDown (key : string)     (* a key is pressed in the number input *)
| ParentYear (year : Z).          (* the effect that follows the [year] prop *)

Section Component.
(** The props [min] and [max]. *)
Variables min max : Z.
(** [parseInt(text, 10)]; [None] is [NaN]. *)
Variable parseInt : string → option Z.

(** [commitInput(val)] with its four effects; an integer is turned into
    its decimal text by [toString]. *)
Definition commit (val : option Z) (s : State) : State :=
  let finalVal := Timeline.commitInput min max val in
  {| localYear := finalVal;
     inputValue := pretty finalVal;
     changes := changes s ++ [finalVal];
     commits := commits s ++ [finalVal] |}.

Definition exec (ev : Event) (s : State) : State :=
  match ev with
  | SliderChange val =>
      {| localYear := val; inputValue := pretty val;
         changes := changes s ++ [val]; commits := commits s |}
  | SliderCommit => commit (Some (localYear s)) s
  | KeyUp key =>
      if bool_decide (key = "ArrowLeft") || bool_decide (key = "ArrowRight")
      then commit (Some (localYear s)) s
      else s
  | InputChange text =>
      {| localYear := localYear s; inputValue := text;
         changes := changes s; commits := commits s |}
  | InputBlur =>
      match parseInt (inputValue s) with
      | Some parsed => commit (Some parsed) s
      | None =>
          {| localYear := localYear s; inputValue := pretty (localYear s);
             changes := changes s; commits := commits s |}
      end
  | InputKeyDown key =>
      if bool_decide (key = "Enter") then
        match parseInt (inputValue s) with
        | Some parsed => commit (Some parsed) s
        | None => s
        end
      else s
  | ParentYear year =>
      {| localYear := year; inputValue := pretty year;
         changes := changes s; commits := commits s |}
  end.

Definition run (evs : list Event) (s : State) : State :=
  foldl (λ s ev, exec ev s) s evs.

End Component.

(** The component as mounted with the prop [year]. *)
Definition mounted (year : Z) : State :=
  {| localYear := year; inputValue := pretty year;
     changes := []; commits := [] |}.

(** Events that change the text of the number input without committing. *)
Definition is_typing (ev : Event) : bool :=
  match ev with InputChange _ => true | _ => false end.

End TimelineComponent.

(** ** Further definitions for the properties *)

(** Every cache entry refers to an object of the heap that carries the year
    it is stored under. *)
Definition cache_sound (w : GeminiService.World) : Prop :=
  ∀ y l, GeminiService.cache w !! y = Some l →
         ∃ d, GeminiService.heap w !! l = Some d ∧ year d = y.

(** The cleanup of the effect of VideoGenerator.tsx, run when the component
    is unmounted: [isPlayingRef.current = false]. *)
Definition unmount (s : Playback.State) : Playback.State :=
  {| Playback.startYear := Playback.startYear s;
     Playback.endYear := Playback.endYear s;
     Playback.step := Playback.step s;
     Playback.isPlaying := Playback.isPlaying s;
     Playback.isPlayingRef := false;
     Playback.loops := Playback.loops s;
     Playback.notified := Playback.notified s;
     Playback.alerts := Playback.alerts s |}.

(** The playback keeps to the configured range: the inputs are as mounted,
    every suspended loop carries the end year and step of the inputs, and
    every year of a loop or handed to [onYearChange] lies within the range
    (above the start year when the step is not negative). *)
Definition in_range (sy ey st : Z) (y : Z) : Prop :=
  y ≤ ey ∧ (0 ≤ st → sy ≤ y).

Definition keeps_range (sy ey st : Z) (s : Playback.State) : Prop :=
  Playback.startYear s = sy ∧ Playback.endYear s = ey ∧ Playback.step s = st ∧
  Forall (λ l, Playback.loop_endYear l = ey ∧ Playback.loop_step l = st ∧
               (0 ≤ st → sy ≤ Playback.yearToLoad l)) (Playback.loops s) ∧
  Forall (in_range sy ey st) (Playback.notified s).

(** A single loop is running within the range and cannot leave it, because
    its step is not positive. *)
Definition stuck (s : Playback.State) : Prop :=
  Playback.isPlayingRef s = true ∧ Playback.isPlaying s = true ∧
  ∃ l, Playback.loops s = [l] ∧
       Playback.yearToLoad l ≤ Playback.loop_endYear l ∧
       Playback.loop_step l ≤ 0.

(** The sizes of the chunks the platform delivers in a trace, in order. *)
Definition delivered (evs : list Recording.Event) : list nat :=
  omap (λ ev, match ev with Recording.DataAvailable n => Some n | _ => None end) evs.

Definition is_dispatch (ev : Recording.Event) : bool :=
  match ev with Recording.DispatchStop => true | _ => false end.


(** Every value handed to [onCommit] went through [commitInput]: it is not
    0, and it lies within the bounds when these are in order and the upper
    one is not 0; and every commit came with a change. *)
Definition commits_normalised (min max : Z) (s : TimelineComponent.State) : Prop :=
  Forall (λ y, y ≠ 0 ∧ (min ≤ max → max ≠ 0 → min ≤ y ≤ max))
    (TimelineComponent.commits s) ∧
  (length (TimelineComponent.commits s)
   ≤ length (TimelineComponent.changes s))%nat.

(** The number input shows the year of the slider. *)
Definition text_synced (s : TimelineComponent.State) : Prop :=
  TimelineComponent.inputValue s = pretty (TimelineComponent.localYear s).

(** ** services/geminiService.ts with its [await]

    [fetchHistoricalContext] is suspended between the call of the service
    and the use of its answer, so calls can overlap: a call that finds the
    year missing invokes the service and waits; when the answer arrives the
    rest of the [try] block (or the [catch]) runs. *)

Module GeminiServiceAsync.

Record State := {
  world : GeminiService.World;
  (** the years of the activations that wait for the service *)
  inflight : list Z;
  (** the references the calls have returned, in the order of return *)
  returned : list nat
}.

Inductive Event :=
| Call (y : Z)                                  (* fetchHistoricalContext(y) *)
| Settles (i : nat) (r : GeminiService.ApiOutcome).
                            (* the service answers the [i]-th waiting call *)

Section Service.
Variable JSON_parse : string → option HistoricalData.

Definition exec (ev : Event) (a : State) : State :=
  match ev with
  | Call y =>
      match GeminiService.cache (world a) !! y with
      | Some l =>
          {| world := world a; inflight := inflight a;
             returned := returned a ++ [l] |}
      | None =>
          {| world := GeminiService.log_call y (world a);
             inflight := inflight a ++ [y];
             returned := returned a |}
      end
  | Settles i r =>
      match inflight a !! i with
      | None => a
      | Some y =>
          let '(l, w) :=
            match GeminiService.try_block JSON_parse y r (world a) with
            | Some res => res
            | None => GeminiService.alloc (GeminiService.fallback y) (world a)
            end in
          {| world := w; inflight := delete i (inflight a);
             returned := returned a ++ [l] |}
      end
  end.

Definition run (evs : list Event) (a : State) : State :=
  foldl (λ a ev, exec ev a) a evs.

End Service.

(** The module as loaded. *)
Definition loaded : State :=
  {| world := GeminiService.loaded; inflight := []; returned := [] |}.

End GeminiServiceAsync.

(** ** App.tsx: what can happen while a fetch is pending, other than a load *)

Module AppPending.

Inductive Event :=
| Clicked (t : InteractiveMap.Target)  (* a click on the map *)
| SliderMoved (y : Z).                 (* [onChange] of the timeline alone *)

Definition step (e : Event) (s : App.State) : App.State :=
  match e with
  | Clicked t => App.step (App.MapClick t) s
  | SliderMoved y => App.handleTimelineChange y s
  end.

Definition run (es : list Event) (s : App.State) : App.State :=
  foldl (λ s e, step e s) s es.

End AppPending.

(** ** Exact integers

    JavaScript adds years as doubles; between [-2^53] and [2^53] the sum of
    two integers is exact whenever it lies in that range too. *)
Definition safe_integer (z : Z) : Prop := - 2 ^ 53 ≤ z ≤ 2 ^ 53.

(** ** components/VideoGenerator.tsx: recording, with the [await] of the
    capture request

    [handleStartRecording] is suspended while the platform asks the user, and
    the button stays enabled, so the component can come to hold several
    recorders. Recorder [i] records stream [i]. *)

Module RecordingAsync.

Record State := {
  isRecording : bool;
  (** calls of [getDisplayMedia] that have not been answered *)
  requests : nat;
  (** the state of every recorder created so far *)
  recorders : list Recording.RecorderState;
  (** [mediaRecorderRef.current], as an index into [recorders] *)
  current : option nat;
  recordedChunks : list nat;
  (** the recorders whose 'stop' event is queued, oldest first *)
  stopQueue : list nat;
  downloads : list (list nat);
  (** the streams whose tracks were stopped by [onstop], oldest first *)
  released : list nat;
  alerts : list string
}.

(** [MediaRecorder.stop()] of the platform on recorder [i], which records. *)
Definition recorder_stop (i : nat) (s : State) : State :=
  {| isRecording := isRecording s; requests := requests s;
     recorders := <[i := Recording.inactive]> (recorders s);
     current := current s; recordedChunks := recordedChunks s;
     stopQueue := stopQueue s ++ [i];
     downloads := downloads s; released := released s; alerts := alerts s |}.

(** [if (ref.current && ref.current.state !== 'inactive') ref.current.stop()],
    the body of [handleStopRecording] and of every [onended] handler. *)
Definition stop_if_active (s : State) : State :=
  match current s with
  | None => s
  | Some c =>
      match recorders s !! c with
      | Some Recording.recording => recorder_stop c s
      | Some Recording.inactive | None => s
      end
  end.

(** [handleStartRecording] up to its [await]. *)
Definition request (s : State) : State :=
  {| isRecording := isRecording s; requests := S (requests s);
     recorders := recorders s; current := current s;
     recordedChunks := recordedChunks s; stopQueue := stopQueue s;
     downloads := downloads s; released := released s; alerts := alerts s |}.

(** [handleStartRecording] after its [await], for one pending request. *)
Definition answered (granted : bool) (s : State) : State :=
  match requests s with
  | O => s
  | S n =>
      if granted then
        {| isRecording := true; requests := n;
           recorders := recorders s ++ [Recording.recording];
           current := Some (length (recorders s));
           recordedChunks := recordedChunks s; stopQueue := stopQueue s;
           downloads := downloads s; released := released s;
           alerts := alerts s |}
      else
        {| isRecording := isRecording s; requests := n;
           recorders := recorders s; current := current s;
           recordedChunks := recordedChunks s; stopQueue := stopQueue s;
           downloads := downloads s; released := released s;
           alerts := alerts s ++ ["无法启动录制，请确保您授予了屏幕录制权限。"] |}
  end.

(** [recorder.onstop] of recorder [i]. *)
Definition onstop (i : nat) (rest : list nat) (s : State) : State :=
  {| isRecording := false; requests := requests s;
     recorders := recorders s; current := current s;
     recordedChunks := [];
     stopQueue := rest;
     downloads := downloads s ++ [recordedChunks s];
     released := released s ++ [i];
     alerts := alerts s |}.

Inductive Event :=
| Press                         (* the record button *)
| Answer (granted : bool)       (* the platform answers a capture request *)
| Chunk (size : nat)            (* a recorder delivers a chunk *)
| SharingStopped                (* 'ended' on the track of some stream *)
| RecorderTracksEnded (i : nat) (* recorder [i] notices its tracks ended *)
| StopDispatched.               (* the oldest queued 'stop' is dispatched *)

Definition exec (ev : Event) (s : State) : State :=
  match ev with
  | Press => if isRecording s then stop_if_active s else request s
  | Answer granted => answered granted s
  | Chunk size =>
      {| isRecording := isRecording s; requests := requests s;
         recorders := recorders s; current := current s;
         recordedChunks :=
           if (0 <? size)%nat then recordedChunks s ++ [size]
           else recordedChunks s;
         stopQueue := stopQueue s;
         downloads := downloads s; released := released s;
         alerts := alerts s |}
  | SharingStopped => stop_if_active s
  | RecorderTracksEnded i =>
      match recorders s !! i with
      | Some Recording.recording => recorder_stop i s
      | Some Recording.inactive | None => s
      end
  | StopDispatched =>
      match stopQueue s with
      | [] => s
      | i :: rest => onstop i rest s
      end
  end.

Definition run (evs : list Event) (s : State) : State :=
  foldl (λ s ev, exec ev s) s evs.

Definition mounted : State :=
  {| isRecording := false; requests := O; recorders := []; current := None;
     recordedChunks := []; stopQueue := []; downloads := []; released := [];
     alerts := [] |}.

#[global] Instance recorder_state_eq_dec : EqDecision Recording.RecorderState.
Proof. solve_decision. Defined.

(** The number of recorders that record. *)
Definition live (s : State) : nat :=
  length (filter (λ r, r = Recording.recording) (recorders s)).

(** The button is never pressed while a capture request is pending. *)
Fixpoint paced (evs : list Event) (s : State) : bool :=
  match evs with
  | [] => true
  | ev :: evs =>
      match ev with
      | Press => bool_decide (requests s = O)
      | _ => true
      end && paced evs (exec ev s)
  end.

(** At most one capture request, recording or queued 'stop' event exists;
    the tracks were released as often as an artifact was downloaded; the
    button shows "stop" exactly while a recorder records or awaits its
    'stop' event. *)
Definition one_at_a_time (s : State) : Prop :=
  length (released s) = length (downloads s) ∧
  (requests s + live s + length (stopQueue s) ≤ 1)%nat ∧
  isRecording s = bool_decide (live s + length (stopQueue s) = 1)%nat.

End RecordingAsync.

(** * Sample data for the examples *)

(** Two concrete services for the examples: one that always answers with a
    parseable text, one whose first call is rejected. *)
Definition sample_parse (s : string) : option HistoricalData :=
  if decide (s = "{}") then Some {| year := 0; summary := "s"; regimes := [] |}
  else None.

Definition steady_service (k : nat) (y : Z) : GeminiService.ApiOutcome :=
  GeminiService.Response (Some "{}").

Definition flaky_service (k : nat) (y : Z) : GeminiService.ApiOutcome :=
  match k with
  | O => GeminiService.Rejected
  | S _ => GeminiService.Response (Some "{}")
  end.

Definition sample_years : list Z := [1000; 1050; 1000].

Definition franks : HistoricalRegime :=
  {| name := "Franks"; color := "#1d4ed8"; isoCodes := ["FRA"; "DEU"];
     events := [] |}.

Definition normans : HistoricalRegime :=
  {| name := "Normans"; color := "#b91c1c"; isoCodes := ["FRA"; "GBR"];
     events := [] |}.

Definition snapshot_1000 : HistoricalData :=
  {| year := 1000; summary := "s"; regimes := [franks; normans] |}.

Definition france : GeoJsonFeature := {| id := "FRA"; properties_name := "France" |}.
Definition spain : GeoJsonFeature := {| id := "ESP"; properties_name := "Spain" |}.

Definition snapshot_1050 : HistoricalData :=
  {| year := 1050; summary := "s"; regimes := [normans] |}.

Definition germany : GeoJsonFeature := {| id := "DEU"; properties_name := "Germany" |}.

Definition showing_1000 : App.State :=
  {| App.currentYear := 1000; App.historicalData := Some snapshot_1000;
     App.loading := false; App.error := None;
     App.selectedRegime := None; App.selectedAreaName := None;
     App.fetches := [1000] |}.


(** A [parseInt] for the examples: it knows two texts. *)
Definition digits_only (text : string) : option Z :=
  if bool_decide (text = "0") then Some 0
  else if bool_decide (text = "1453") then Some 1453
  else None.

(** * Properties *)

(** ** The snapshot cache *)

Section GeminiServiceFacts.
Import GeminiService.
Variable generateContent : nat → Z → ApiOutcome.
Variable JSON_parse : string → option HistoricalData.

Local Abbreviation fetch := (fetchHistoricalContext generateContent JSON_parse).
Local Abbreviation fails := (fetch_fails generateContent JSON_parse).

Lemma fetch_hit y l w :
  cache w !! y = Some l → fetch y w = (l, w).
Proof. intros H. unfold fetchHistoricalContext. by rewrite H. Qed.

Lemma try_block_Some y r w l w' :
  try_block JSON_parse y r w = Some (l, w') →
  cache w' = <[y := l]> (cache w) ∧ calls w' = calls w ∧ l = length (heap w) ∧
  ∃ d, heap w' = heap w ++ [d] ∧ year d = y.
Proof.
  unfold try_block. destruct r as [|text]; [done|].
  destruct (truthy text) as [s|]; [|done].
  destruct (JSON_parse s) as [d|]; [|done].
  intros [= <- <-]. simpl. eauto 10.
Qed.

Lemma try_block_fails y w w1 :
  fails y w →
  try_block JSON_parse y (generateContent (length (calls w)) y) w1 = None.
Proof.
  unfold fetch_fails, try_block. intros H.
  destruct (generateContent _ _) as [|text]; [done|].
  destruct (truthy text) as [s|]; [|done]. by rewrite H.
Qed.

Lemma try_block_succeeds y w w1 :
  ¬ fails y w →
  is_Some (try_block JSON_parse y (generateContent (length (calls w)) y) w1).
Proof.
  unfold fetch_fails, try_block. intros H.
  destruct (generateContent _ _) as [|text]; [by destruct H|].
  destruct (truthy text) as [s|]; [|by destruct H].
  destruct (JSON_parse s) as [d|]; [|by destruct H].
  by destruct (alloc _ _).
Qed.

(** A miss whose attempt succeeds: one call is logged and the fresh object
    is stored in the cache under the year asked. *)
Lemma fetch_miss_ok y w :
  cache w !! y = None → ¬ fails y w →
  ∃ l w', fetch y w = (l, w') ∧ cache w' = <[y := l]> (cache w) ∧
          calls w' = calls w ++ [y] ∧ l = length (heap w) ∧
          ∃ d, heap w' = heap w ++ [d] ∧ year d = y.
Proof.
  intros Hc Hok. unfold fetchHistoricalContext. rewrite Hc. simpl.
  destruct (try_block_succeeds y w (log_call y w) Hok) as [[l w'] Ht].
  rewrite Ht. exists l, w'. split; [done|].
  by apply try_block_Some in Ht.
Qed.

(** A miss whose attempt fails: one call is logged, a fresh fallback object
    is returned, and the cache is left as it was. *)
Lemma fetch_miss_fails y w :
  cache w !! y = None → fails y w →
  fetch y w = (length (heap w),
               {| heap := heap w ++ [fallback y]; cache := cache w;
                  calls := calls w ++ [y] |}).
Proof.
  intros Hc Hf. unfold fetchHistoricalContext. rewrite Hc. simpl.
  by rewrite try_block_fails.
Qed.

(** Every miss invokes the service, whatever the outcome. *)
Lemma fetch_miss_calls y w :
  cache w !! y = None → calls (fetch y w).2 = calls w ++ [y].
Proof.
  intros Hc. unfold fetchHistoricalContext. rewrite Hc. simpl.
  destruct (try_block _ _ _ _) as [[l w']|] eqn:Ht; simpl; [|done].
  by apply try_block_Some in Ht as (_ & -> & _).
Qed.

Lemma invocations_log y z w :
  invocations y (log_call z w)
  = (invocations y w + (if decide (z = y) then 1 else 0))%nat.
Proof.
  unfold invocations, log_call. simpl.
  rewrite filter_app, length_app. f_equal.
  rewrite filter_cons, filter_nil. by case_decide.
Qed.

Lemma invocations_calls y w w' z :
  calls w' = calls w ++ [z] →
  invocations y w' = (invocations y w + (if decide (z = y) then 1 else 0))%nat.
Proof.
  intros H. rewrite <- invocations_log. unfold invocations. by rewrite H.
Qed.

Lemma once_each_fetch y w :
  reliable generateContent JSON_parse →
  once_each w → once_each (fetch y w).2.
Proof.
  intros Hrel Hinv. destruct (cache w !! y) as [l|] eqn:Hc.
  - by rewrite (fetch_hit _ _ _ Hc).
  - destruct (fetch_miss_ok y w Hc (Hrel y w)) as (l & w' & -> & Hc' & Hcalls & _).
    simpl. intros z. rewrite (invocations_calls z w w' y Hcalls), Hc'.
    destruct (Hinv z) as [Hz0 Hz1]. case_decide as Hyz.
    + subst z. rewrite lookup_insert_eq. rewrite (Hz0 Hc). split; [done|lia].
    + rewrite lookup_insert_ne by done. split; [intros H; rewrite (Hz0 H)|]; lia.
Qed.

Lemma once_each_session ys w :
  reliable generateContent JSON_parse →
  once_each w → once_each (session generateContent JSON_parse ys w).
Proof.
  intros Hrel. revert w. induction ys as [|y ys IH]; intros w Hinv; [done|].
  simpl. apply IH. by apply once_each_fetch.
Qed.

(** [C1] A year that is present in the cache is answered from the cache at
    once: the cached object is returned and neither the cache, the heap nor
    the log of external calls changes, so two successive calls return the
    same object. In a session of calls in which the external service does
    not fail, the service is invoked at most once for each year. *)
Theorem getSnapshot_warm_cache :
  (∀ y l w, cache w !! y = Some l →
     fetch y w = (l, w) ∧ fetch y (fetch y w).2 = (l, w)) ∧
  (∀ ys y, reliable generateContent JSON_parse →
     (invocations y (session generateContent JSON_parse ys loaded) ≤ 1)%nat).
Proof.
  split.
  - intros y l w H. rewrite (fetch_hit _ _ _ H). simpl.
    by rewrite (fetch_hit _ _ _ H).
  - intros ys y Hrel. apply (once_each_session ys loaded Hrel).
    intros z. split; [done|]. unfold invocations. simpl. lia.
Qed.

(** [C2] When the year is not cached and the attempt fails (the call is
    rejected, the response has no text, or the text does not parse), the
    call still returns: a fresh object with the year asked, the non-empty
    "unavailable" summary and no regimes. The cache is left unchanged, so
    the next call for the year invokes the service again, and if that
    attempt succeeds its result is stored in the cache and served from it. *)
Theorem getSnapshot_fallback (y : Z) (w : World) :
  cache w !! y = None → fails y w →
  ∃ l w1, fetch y w = (l, w1) ∧
    (∃ d, heap w1 !! l = Some d ∧
          year d = y ∧ summary d ≠ EmptyString ∧ regimes d = []) ∧
    cache w1 = cache w ∧
    calls w1 = calls w ++ [y] ∧
    calls (fetch y w1).2 = calls w1 ++ [y] ∧
    (¬ fails y w1 →
       ∃ l2 w2 d2, fetch y w1 = (l2, w2) ∧ cache w2 !! y = Some l2 ∧
         heap w2 !! l2 = Some d2 ∧ year d2 = y ∧ fetch y w2 = (l2, w2)).
Proof.
  intros Hc Hf. eexists _, _. split; [by apply fetch_miss_fails|].
  set (w1 := {| heap := _ |}).
  assert (cache w1 !! y = None) as Hc1 by done.
  split; [|split; [done|split; [done|split]]].
  - exists (fallback y). split; [|done]. simpl.
    by rewrite lookup_app_r, Nat.sub_diag.
  - by apply fetch_miss_calls.
  - intros Hok1.
    destruct (fetch_miss_ok y w1 Hc1 Hok1)
      as (l2 & w2 & Hfetch & Hc2 & _ & Hl2 & d2 & Hheap & Hyear).
    assert (cache w2 !! y = Some l2) as Hhit by (by rewrite Hc2, lookup_insert_eq).
    exists l2, w2, d2. split_and!; [done|done| |done|by apply fetch_hit].
    by rewrite Hheap, Hl2, lookup_app_r, Nat.sub_diag.
Qed.

End GeminiServiceFacts.

Lemma getSnapshot_warm_cache_witness :
  let w := (GeminiService.fetchHistoricalContext steady_service sample_parse
              1000 GeminiService.loaded).2 in
  (GeminiService.fetchHistoricalContext steady_service sample_parse 1000 w = (O, w) ∧
   GeminiService.fetchHistoricalContext steady_service sample_parse 1000
     (GeminiService.fetchHistoricalContext steady_service sample_parse 1000 w).2
   = (O, w)) ∧
  (GeminiService.invocations 1000
     (GeminiService.session steady_service sample_parse sample_years
        GeminiService.loaded) ≤ 1)%nat.
Proof.
  destruct (getSnapshot_warm_cache steady_service sample_parse) as [Hhit Honce].
  split.
  - apply Hhit. reflexivity.
  - apply Honce. intros y w H. vm_compute in H. discriminate H.
Defined.

Lemma getSnapshot_fallback_witness :
  ∃ l w1,
    GeminiService.fetchHistoricalContext flaky_service sample_parse 1000
      GeminiService.loaded = (l, w1) ∧
    (∃ d, GeminiService.heap w1 !! l = Some d ∧
          year d = 1000 ∧ summary d ≠ EmptyString ∧ regimes d = []) ∧
    GeminiService.cache w1 = GeminiService.cache GeminiService.loaded ∧
    GeminiService.calls w1 = GeminiService.calls GeminiService.loaded ++ [1000] ∧
    GeminiService.calls
      (GeminiService.fetchHistoricalContext flaky_service sample_parse 1000 w1).2
    = GeminiService.calls w1 ++ [1000] ∧
    (¬ GeminiService.fetch_fails flaky_service sample_parse 1000 w1 →
       ∃ l2 w2 d2,
         GeminiService.fetchHistoricalContext flaky_service sample_parse 1000 w1
         = (l2, w2) ∧
         GeminiService.cache w2 !! 1000 = Some l2 ∧
         GeminiService.heap w2 !! l2 = Some d2 ∧ year d2 = 1000 ∧
         GeminiService.fetchHistoricalContext flaky_service sample_parse 1000 w2
         = (l2, w2)).
Proof.
  apply (getSnapshot_fallback flaky_service sample_parse 1000 GeminiService.loaded).
  - reflexivity.
  - exact I.
Defined.

(** The rejected first call leaves the cache empty; the second call succeeds
    and is cached. *)
Example flaky_then_cached :
  let w2 := GeminiService.session flaky_service sample_parse [1000; 1000]
              GeminiService.loaded in
  GeminiService.cache w2 !! 1000 = Some 1%nat ∧
  GeminiService.heap w2 !! 1%nat
  = Some {| year := 1000; summary := "s"; regimes := [] |} ∧
  GeminiService.calls w2 = [1000; 1000].
Proof. by vm_compute. Qed.

(** ** The timeline *)

(** Whatever the bounds and the input, the timeline never commits 0. *)
Lemma commitInput_nonzero (min max : Z) (val : option Z) :
  Timeline.commitInput min max val ≠ 0.
Proof. unfold Timeline.commitInput. by case_decide. Qed.

Lemma commitInput_zero : Timeline.commitInput (-2000) 2000 (Some 0) = 1.
Proof. reflexivity. Qed.

(** A commit from the timeline loads a year that is not 0. *)
Lemma timeline_commit_nonzero (val : option Z) (s : App.State) :
  ∃ y, y ≠ 0 ∧
       App.currentYear (App.step (App.TimelineCommit val) s) = y ∧
       App.fetches (App.step (App.TimelineCommit val) s) = App.fetches s ++ [y].
Proof.
  exists (Timeline.commitInput (-2000) 2000 val).
  split; [apply commitInput_nonzero|done].
Qed.

(** ** The region index *)

Section IndexFacts.
Import InteractiveMap.

Lemma foldl_insert_lookup (cs : list string) (e : Entry) (m : gmap string Entry)
    (iso : string) :
  foldl (λ m c, <[c := e]> m) m cs !! iso
  = if decide (iso ∈ cs) then Some e else m !! iso.
Proof.
  revert m. induction cs as [|c cs IH]; intros m.
  - rewrite decide_False; [done|]. apply not_elem_of_nil.
  - cbn [foldl]. rewrite IH. destruct (decide (iso ∈ cs)) as [Hcs|Hcs].
    + rewrite decide_True; [done|]. by apply list_elem_of_further.
    + destruct (decide (iso = c)) as [->|Hne].
      * rewrite decide_True; [apply lookup_insert_eq|]. apply list_elem_of_here.
      * rewrite decide_False; [by apply lookup_insert_ne|].
        intros [?|?]%elem_of_cons; done.
Qed.

Lemma set_codes_lookup (r : HistoricalRegime) (iso : string) (m : gmap string Entry) :
  set_codes r m !! iso
  = if decide (iso ∈ isoCodes r) then Some {| regime := r |} else m !! iso.
Proof. apply foldl_insert_lookup. Qed.

(** Regimes that do not list a code leave its owner alone. *)
Lemma index_skips (rs : list HistoricalRegime) (iso : string) (m : gmap string Entry) :
  (∀ r, r ∈ rs → iso ∉ isoCodes r) →
  foldl (λ m r, set_codes r m) m rs !! iso = m !! iso.
Proof.
  revert m. induction rs as [|r rs IH]; intros m Hnone; [done|].
  simpl. rewrite IH by (intros r' Hr'; apply Hnone; set_solver).
  rewrite set_codes_lookup. rewrite decide_False; [done|].
  apply Hnone. set_solver.
Qed.

(** [C9] In the index built from a snapshot, a region code belongs to the
    last regime, in the order of the snapshot, that lists it: when a regime
    lists the code and no regime after it does, that regime owns the code,
    whichever earlier regimes list it too. *)
Theorem index_last_write_wins (d : HistoricalData)
    (earlier later : list HistoricalRegime) (r : HistoricalRegime) (iso : string) :
  regimes d = earlier ++ r :: later →
  iso ∈ isoCodes r →
  (∀ r', r' ∈ later → iso ∉ isoCodes r') →
  countryColorMap (Some d) !! iso = Some {| regime := r |}.
Proof.
  intros Hd Hin Hlater. unfold countryColorMap. rewrite Hd, foldl_app. simpl.
  rewrite index_skips by done. rewrite set_codes_lookup. by rewrite decide_True.
Qed.

(** [C7] A click on a feature whose code is in the index emits the regime
    that the index gives for the code, with the display name of the feature;
    a click on a feature whose code is not in the index emits no regime and
    the display name of the feature; a click on the background emits no
    regime and the sentinel "Ocean". Each click emits once. *)
Theorem hit_testing (m : gmap string Entry) (d : GeoJsonFeature) :
  (∀ e, m !! id d = Some e →
        click m (OnFeature d) = [(Some (regime e), properties_name d)]) ∧
  (m !! id d = None → click m (OnFeature d) = [(None, properties_name d)]) ∧
  click m OnBackground = [(None, "Ocean")].
Proof.
  unfold click, path_click, svg_click. split_and!; [intros e H|intros H|done].
  - by rewrite H.
  - by rewrite H.
Qed.

End IndexFacts.

Lemma index_last_write_wins_witness :
  InteractiveMap.countryColorMap (Some snapshot_1000) !! "FRA"
  = Some {| InteractiveMap.regime := normans |}.
Proof.
  apply (index_last_write_wins snapshot_1000 [franks] [] normans "FRA").
  - reflexivity.
  - simpl. set_solver.
  - intros r' H. by apply elem_of_nil in H.
Defined.

Lemma hit_testing_witness :
  InteractiveMap.click (InteractiveMap.countryColorMap (Some snapshot_1000))
    (InteractiveMap.OnFeature france) = [(Some normans, "France")] ∧
  InteractiveMap.click (InteractiveMap.countryColorMap (Some snapshot_1000))
    (InteractiveMap.OnFeature spain) = [(None, "Spain")] ∧
  InteractiveMap.click (InteractiveMap.countryColorMap (Some snapshot_1000))
    InteractiveMap.OnBackground = [(None, "Ocean")].
Proof.
  pose proof (hit_testing (InteractiveMap.countryColorMap (Some snapshot_1000))
                france) as (Hin & _ & Hbg).
  pose proof (hit_testing (InteractiveMap.countryColorMap (Some snapshot_1000))
                spain) as (_ & Hout & _).
  split_and!.
  - apply (Hin {| InteractiveMap.regime := normans |}). reflexivity.
  - apply Hout. reflexivity.
  - exact Hbg.
Defined.

(** The sentinel that a click on the background emits is not "background". *)
Lemma hit_testing_background_counterexample :
  InteractiveMap.click (InteractiveMap.countryColorMap (Some snapshot_1000))
    InteractiveMap.OnBackground ≠ [(None, "background")].
Proof. discriminate. Qed.

(** ** Loading a year *)

Lemma step_keeps_no_selection (ev : App.Event) (s : App.State) :
  App.is_map_click ev = false → App.no_selection s → App.no_selection (App.step ev s).
Proof. destruct ev; done. Qed.

Lemma run_keeps_no_selection (evs : list App.Event) (s : App.State) :
  forallb (λ ev, negb (App.is_map_click ev)) evs = true →
  App.no_selection s → App.no_selection (App.run evs s).
Proof.
  revert s. induction evs as [|ev evs IH]; intros s Hevs Hs; [done|].
  simpl in Hevs. apply andb_prop in Hevs as [Hev Hevs].
  apply (IH _ Hevs), step_keeps_no_selection; [|done].
  by destruct (App.is_map_click ev).
Qed.

(** [loadData] sets both the selected regime and the selected area name to
    null in the same step in which it calls the fetch, before the fetch is
    awaited; and the selection stays null when the fetch settles and through
    whatever else happens, as long as the map is not clicked. *)
Theorem loadData_clears_selection (y : Z) (s : App.State) (evs : list App.Event) :
  forallb (λ ev, negb (App.is_map_click ev)) evs = true →
  App.selectedRegime (App.loadData_begin y s) = None ∧
  App.selectedAreaName (App.loadData_begin y s) = None ∧
  App.fetches (App.loadData_begin y s) = App.fetches s ++ [y] ∧
  App.selectedRegime (App.run evs (App.loadData_begin y s)) = None ∧
  App.selectedAreaName (App.run evs (App.loadData_begin y s)) = None.
Proof.
  intros Hevs. split_and!; [done..| |];
    by apply (run_keeps_no_selection evs (App.loadData_begin y s) Hevs).
Qed.

Lemma loadData_clears_selection_witness :
  App.selectedRegime (App.loadData_begin 1050 showing_1000) = None ∧
  App.selectedAreaName (App.loadData_begin 1050 showing_1000) = None ∧
  App.fetches (App.loadData_begin 1050 showing_1000)
  = App.fetches showing_1000 ++ [1050] ∧
  App.selectedRegime
    (App.run [App.FetchSettles (App.Fulfilled snapshot_1050)]
       (App.loadData_begin 1050 showing_1000)) = None ∧
  App.selectedAreaName
    (App.run [App.FetchSettles (App.Fulfilled snapshot_1050)]
       (App.loadData_begin 1050 showing_1000)) = None.
Proof.
  apply (loadData_clears_selection 1050 showing_1000
           [App.FetchSettles (App.Fulfilled snapshot_1050)]).
  reflexivity.
Defined.

(** [C10] The selection is cleared before the fetch is awaited, but not
    again when the snapshot arrives: a click on the map while the fetch for
    1050 is pending selects a regime of the snapshot of 1000, which is still
    shown, and that selection is kept when the snapshot of 1050, which has
    no such regime, is put on display. So a selection from the previous
    year's snapshot survives the change of year. *)
Lemma selection_survives_counterexample :
  let s := App.run [App.TimelineCommit (Some 1050);
                    App.MapClick (InteractiveMap.OnFeature germany);
                    App.FetchSettles (App.Fulfilled snapshot_1050)]
             showing_1000 in
  App.currentYear s = 1050 ∧
  App.historicalData s = Some snapshot_1050 ∧
  App.selectedRegime s = Some franks ∧
  App.selectedAreaName s = Some "Germany" ∧
  franks ∈ regimes snapshot_1000 ∧
  franks ∉ regimes snapshot_1050.
Proof.
  split_and!; [reflexivity..| |].
  - apply list_elem_of_here.
  - intros H. apply list_elem_of_singleton in H. discriminate H.
Qed.

(** ** Playback *)

Section PlaybackFacts.
Import Playback.

(** A click while the flag is set only clears the two flags: no loop is
    started, none is removed, nothing is notified. *)
Lemma handlePlay_running (s : State) :
  isPlayingRef s = true → handlePlay s = set_playing false s.
Proof. intros H. unfold handlePlay. by rewrite H. Qed.

(** With the flag cleared, a resumed loop returns at once, whichever of the
    two [await]s it was suspended at. *)
Lemma resume_stopped (ok : bool) (l : Loop) (s : State) :
  isPlayingRef s = false → resume ok l s = (None, finally s).
Proof.
  intros H. unfold resume. rewrite H. simpl. by destruct (pc l), ok.
Qed.

Lemma exec_settle_stopped (ev : Event) (s : State) :
  isPlayingRef s = false → is_settle ev = true →
  notified (exec ev s) = notified s ∧ isPlayingRef (exec ev s) = false.
Proof.
  intros Href Hev. destruct ev as [|i ok]; [done|]. simpl.
  destruct (loops s !! i) as [l|]; [|done].
  by rewrite resume_stopped.
Qed.

Lemma run_settle_stopped (evs : list Event) (s : State) :
  isPlayingRef s = false → forallb is_settle evs = true →
  notified (run evs s) = notified s ∧ isPlayingRef (run evs s) = false.
Proof.
  revert s. induction evs as [|ev evs IH]; intros s Href Hevs; [done|].
  simpl in Hevs. apply andb_prop in Hevs as [Hev Hevs].
  destruct (exec_settle_stopped ev s Href Hev) as [Hn Hr].
  destruct (IH (exec ev s) Hr Hevs) as [Hn' Hr']. simpl.
  split; [by rewrite Hn', Hn|done].
Qed.

(** One iteration of a lone loop: the load settles, then the delay. *)
Lemma run_iteration (y : Z) (s : State) :
  loading_year y s →
  let s' := run [Settle 0 true; Settle 0 true] s in
  startYear s' = startYear s ∧ endYear s' = endYear s ∧ step s' = step s ∧
  alerts s' = alerts s ∧
  if y + step s <=? endYear s
  then loading_year (y + step s) s' ∧ notified s' = notified s ++ [y + step s]
  else loops s' = [] ∧ notified s' = notified s ∧
       isPlaying s' = false ∧ isPlayingRef s' = false.
Proof.
  intros [Href Hl]. destruct s as [sy ey st ip ipr ls nt al].
  simpl in Href, Hl. subst ipr ls. cbn. unfold iterate. cbn.
  destruct (y + st <=? ey); cbn; unfold loading_year; by split_and!.
Qed.

Lemma repeat_two_more {A} (x : A) (n : nat) :
  repeat x (2 * S n) = [x; x] ++ repeat x (2 * n).
Proof. replace (2 * S n)%nat with (2 + 2 * n)%nat by lia. done. Qed.

(** A lone loop that is loading [y], with [n] more years within the range,
    visits exactly these and returns. *)
Lemma run_loop (n : nat) (y : Z) (s : State) :
  loading_year y s →
  y + Z.of_nat n * step s ≤ endYear s < y + Z.of_nat (S n) * step s →
  let s' := run (repeat (Settle 0 true) (2 * S n)) s in
  notified s' = notified s ++ visited (y + step s) (step s) n ∧
  loops s' = [] ∧ isPlaying s' = false ∧ isPlayingRef s' = false ∧
  alerts s' = alerts s.
Proof.
  revert y s. induction n as [|n IH]; intros y s Hload Hrange;
    rewrite !Nat2Z.inj_succ in Hrange; assert (0 < step s) by lia.
  - destruct (run_iteration y s Hload) as (_ & _ & _ & Ha & Hit).
    rewrite (proj2 (Z.leb_gt _ _)) in Hit by lia.
    destruct Hit as (? & ? & ? & ?). simpl visited. rewrite app_nil_r.
    by split_and!.
  - assert (0 ≤ Z.of_nat n * step s) by (apply Z.mul_nonneg_nonneg; lia).
    rewrite repeat_two_more. unfold run. rewrite foldl_app.
    fold (run [Settle 0 true; Settle 0 true] s).
    destruct (run_iteration y s Hload) as (_ & He & Hst & Ha & Hit).
    rewrite (proj2 (Z.leb_le _ _)) in Hit by lia.
    destruct Hit as [Hload' Hn].
    set (s1 := run [Settle 0 true; Settle 0 true] s) in *.
    fold (run (repeat (Settle 0 true) (2 * S n)) s1).
    destruct (IH (y + step s) s1) as (Hn' & ? & ? & ? & Ha').
    { done. }
    { rewrite He, Hst, !Nat2Z.inj_succ. lia. }
    rewrite Hn', Hn, Hst, Ha', Ha, <- app_assoc. by split_and!.
Qed.

(** Playback over any range: when the component is idle and the end year
    lies [n] whole steps (and less than [n + 1]) after the start year, a
    click and the settling of the promises the loop waits for visit the
    [n + 1] years of the range in order, once each, and leave it idle. *)
Lemma playback_visits_range (n : nat) (s : State) :
  isPlayingRef s = false → loops s = [] →
  startYear s + Z.of_nat n * step s ≤ endYear s
    < startYear s + Z.of_nat (S n) * step s →
  let s' := run (Click :: repeat (Settle 0 true) (2 * S n)) s in
  notified s' = notified s ++ visited (startYear s) (step s) (S n) ∧
  loops s' = [] ∧ isPlaying s' = false ∧ isPlayingRef s' = false ∧
  alerts s' = alerts s.
Proof.
  intros Href Hl Hrange. pose proof Hrange as Hrange'.
  rewrite !Nat2Z.inj_succ in Hrange'. assert (0 < step s) by lia.
  assert (0 ≤ Z.of_nat n * step s) by (apply Z.mul_nonneg_nonneg; lia).
  assert (startYear s ≤ endYear s) by lia.
  cbn [run foldl]. fold (run (repeat (Settle 0 true) (2 * S n)) (exec Click s)).
  assert (loading_year (startYear s) (exec Click s) ∧
          notified (exec Click s) = notified s ++ [startYear s] ∧
          endYear (exec Click s) = endYear s ∧ step (exec Click s) = step s ∧
          alerts (exec Click s) = alerts s) as (Hload & Hn & He & Hst & Ha).
  { simpl. unfold handlePlay. rewrite Href. simpl.
    rewrite Z.gtb_ltb, (proj2 (Z.ltb_ge _ _)) by lia.
    unfold iterate. simpl. rewrite (proj2 (Z.leb_le _ _)) by lia.
    simpl. unfold loading_year. simpl. by rewrite Hl. }
  destruct (run_loop n (startYear s) (exec Click s) Hload) as (Hn' & ? & ? & ? & Ha').
  { rewrite He, Hst. lia. }
  rewrite Hn', Hn, Hst, Ha', Ha, <- app_assoc. by split_and!.
Qed.

(** A stop requested while the playback runs does not preempt: it clears
    the flag and leaves every suspended loop where it is. The flag is
    looked at only when a loop is resumed from one of its two [await]s (the
    load and the delay), and a loop resumed after the stop returns there.
    So, as long as play is not clicked again, no call of [onYearChange] is
    made after the stop, however the pending promises settle. *)
Theorem stop_cancels_playback (s : State) (evs : list Event) :
  isPlayingRef s = true → forallb is_settle evs = true →
  loops (handlePlay s) = loops s ∧
  notified (handlePlay s) = notified s ∧
  (∀ i ok l, loops s !! i = Some l →
     exec (Settle i ok) (handlePlay s)
     = set_loops (delete i (loops s)) (handlePlay s)) ∧
  notified (run evs (handlePlay s)) = notified s ∧
  isPlayingRef (run evs (handlePlay s)) = false.
Proof.
  intros Href Hevs. rewrite (handlePlay_running s Href).
  destruct (run_settle_stopped evs (set_playing false s) eq_refl Hevs) as [Hn Hr].
  split_and!; [done|done| |done|done].
  intros i ok l Hl. simpl. rewrite Hl. by rewrite resume_stopped.
Qed.


End PlaybackFacts.

Lemma stop_cancels_playback_witness :
  let s := Playback.run [Playback.Click; Playback.Settle 0 true;
                         Playback.Settle 0 true]
             (Playback.mounted 1000 1200 50) in
  Playback.notified s = [1000; 1050] ∧
  Playback.notified
    (Playback.run [Playback.Settle 0 true; Playback.Settle 0 true]
       (Playback.handlePlay s)) = [1000; 1050].
Proof.
  split; [reflexivity|].
  apply (stop_cancels_playback
           (Playback.run [Playback.Click; Playback.Settle 0 true;
                          Playback.Settle 0 true]
              (Playback.mounted 1000 1200 50))
           [Playback.Settle 0 true; Playback.Settle 0 true]); reflexivity.
Defined.


(** [C8] Play, stop and play again before the promise awaited by the first loop
    settles: the first loop finds the flag set when it is resumed and goes
    on, next to the loop started by the third click. Both call
    [onYearChange] for every year. *)
Lemma playback_two_loops :
  let s := Playback.run [Playback.Click; Playback.Click; Playback.Click;
                         Playback.Settle 0 true; Playback.Settle 1 true;
                         Playback.Settle 0 true; Playback.Settle 1 true]
             (Playback.mounted 1000 1200 50) in
  length (Playback.loops s) = 2%nat ∧
  Playback.isPlayingRef s = true ∧
  Playback.notified s = [1000; 1000; 1050; 1050].
Proof. by vm_compute. Qed.

(** [C4] Stop is requested after the notification for 1050 and before the
    one for 1100, and play is clicked again before the stopped loop is
    resumed. The click sets the shared flag again, so the stopped loop
    passes both tests when it is resumed and hands 1100 to [onYearChange],
    while the loop started by the second play is still loading 1000. *)
Lemma stopped_loop_notifies_after_restart :
  let s := Playback.run [Playback.Click; Playback.Settle 0 true;
                         Playback.Settle 0 true]
             (Playback.mounted 1000 1200 50) in
  Playback.notified s = [1000; 1050] ∧
  Playback.isPlayingRef s = true ∧
  Playback.isPlayingRef (Playback.handlePlay s) = false ∧
  Playback.notified (Playback.handlePlay s) = [1000; 1050] ∧
  Playback.notified
    (Playback.run [Playback.Click; Playback.Settle 0 true; Playback.Settle 0 true]
       (Playback.handlePlay s))
  = [1000; 1050; 1000; 1100] ∧
  Playback.loops
    (Playback.run [Playback.Click; Playback.Settle 0 true; Playback.Settle 0 true]
       (Playback.handlePlay s))
  = [ {| Playback.pc := Playback.AwaitLoad; Playback.yearToLoad := 1100;
         Playback.loop_endYear := 1200; Playback.loop_step := 50 |};
      {| Playback.pc := Playback.AwaitLoad; Playback.yearToLoad := 1000;
         Playback.loop_endYear := 1200; Playback.loop_step := 50 |} ].
Proof. by vm_compute. Qed.

(** [C5] A range that crosses zero: the loop hands year 0 to [onYearChange], and
    [loadData], which is what the application passes as [onYearChange], makes
    0 the current year and fetches the snapshot of year 0. *)
Lemma playback_commits_year_zero :
  let s := Playback.run (Playback.Click :: repeat (Playback.Settle 0 true) 6)
             (Playback.mounted (-50) 50 50) in
  Playback.notified s = [-50; 0; 50] ∧
  App.currentYear (App.step (App.PlaybackYear 0) showing_1000) = 0 ∧
  App.fetches (App.step (App.PlaybackYear 0) showing_1000) = [1000; 0].
Proof. by vm_compute. Qed.

(** ** Recording *)

Section RecordingFacts.
Import Recording.

Lemma start_accounted (s : State) :
  idle s →
  accounted (length (downloads s)) (tracksReleased s) (handleStartRecording true s).
Proof.
  intros (_ & _ & Hq). unfold accounted, live. simpl. rewrite Hq.
  rewrite Nat.ltb_irrefl. split_and!; [lia|lia|lia|done].
Qed.

Lemma exec_accounted (d0 r0 : nat) (ev : Event) (t : State) :
  is_start ev = false → accounted d0 r0 t → accounted d0 r0 (exec ev t).
Proof.
  intros Hev (Hone & Hrel & Hle & Hbtn). unfold accounted, live in *.
  destruct ev as [g| |size| | |]; try done; simpl;
    unfold handleStopRecording, onended, stop_if_active.
  - destruct (mediaRecorder t) as [[]|] eqn:E; simpl; rewrite ?E; split_and!; (lia || done).
  - destruct (mediaRecorder t) as [[]|] eqn:E; simpl; rewrite ?E; split_and!; (lia || done).
  - destruct (mediaRecorder t) as [[]|] eqn:E; simpl; rewrite ?E; split_and!; (lia || done).
  - destruct (stopQueued t) as [|n] eqn:E; simpl; rewrite ?E; [done|].
    rewrite length_app. simpl. split_and!; [lia..|].
    symmetry. apply negb_false_iff, Nat.ltb_lt. lia.
Qed.

Lemma run_accounted (d0 r0 : nat) (evs : list Event) (t : State) :
  forallb (λ ev, negb (is_start ev)) evs = true →
  accounted d0 r0 t → accounted d0 r0 (run evs t).
Proof.
  revert t. induction evs as [|ev evs IH]; intros t Hevs Ht; [done|].
  simpl in Hevs. apply andb_prop in Hevs as [Hev Hevs].
  apply (IH _ Hevs), exec_accounted; [|done]. by destruct (is_start ev).
Qed.

(** Without a new start, a recorder that is not recording stays so. *)
Lemma exec_stays_stopped (ev : Event) (t : State) :
  is_start ev = false → live t = O → live (exec ev t) = O.
Proof.
  unfold live. destruct ev as [g| |size| | |]; try done; simpl;
    unfold handleStopRecording, onended, stop_if_active;
    destruct (mediaRecorder t) as [[]|] eqn:E; simpl; rewrite ?E; try done.
  all: destruct (stopQueued t); simpl; by rewrite ?E.
Qed.

(** A request to stop, manual or from the platform, leaves the recorder
    inactive. *)
Lemma exec_stop_request (ev : Event) (t : State) :
  is_stop_request ev = true → live (exec ev t) = O.
Proof.
  unfold live. destruct ev as [g| |size| | |]; try done; simpl;
    unfold handleStopRecording, onended, stop_if_active;
    destruct (mediaRecorder t) as [[]|] eqn:E; simpl; by rewrite ?E.
Qed.

Lemma run_stays_stopped (evs : list Event) (t : State) :
  forallb (λ ev, negb (is_start ev)) evs = true →
  live t = O → live (run evs t) = O.
Proof.
  revert t. induction evs as [|ev evs IH]; intros t Hevs Ht; [done|].
  simpl in Hevs. apply andb_prop in Hevs as [Hev Hevs].
  apply (IH _ Hevs), exec_stays_stopped; [|done]. by destruct (is_start ev).
Qed.

Lemma run_stop_request (evs : list Event) (t : State) :
  forallb (λ ev, negb (is_start ev)) evs = true →
  existsb is_stop_request evs = true → live (run evs t) = O.
Proof.
  revert t. induction evs as [|ev evs IH]; intros t Hevs Hstop; [done|].
  simpl in Hevs, Hstop. apply andb_prop in Hevs as [Hev Hevs].
  apply orb_prop in Hstop as [Hnow|Hlater]; simpl.
  - apply (run_stays_stopped _ _ Hevs). by apply exec_stop_request.
  - by apply IH.
Qed.

(** [C6] The handler of the platform's "stop sharing" signal is the very
    body of the manual stop, and stopping a recorder that is not recording
    changes nothing. For one recording, from its start on an idle component
    up to the next start, whatever stop requests arrive (manual or from the
    platform, once or repeatedly, in any order with the dispatch of the
    'stop' event): at any time at most one artifact has been downloaded and
    the tracks have been released exactly as often; and once a stop has been
    requested and the queued 'stop' event has been dispatched, exactly one
    artifact has been downloaded, the tracks have been released exactly
    once, and the button shows "record" again. *)
Theorem recording_single_artifact (s : State) (evs : list Event) :
  idle s → forallb (λ ev, negb (is_start ev)) evs = true →
  (∀ t, onended t = handleStopRecording t) ∧
  (∀ t, mediaRecorder t ≠ Some recording → handleStopRecording t = t) ∧
  (length (downloads (run evs (handleStartRecording true s)))
   ≤ length (downloads s) + 1)%nat ∧
  (tracksReleased (run evs (handleStartRecording true s)) + length (downloads s)
   = tracksReleased s + length (downloads (run evs (handleStartRecording true s))))%nat ∧
  (existsb is_stop_request evs = true →
   stopQueued (run evs (handleStartRecording true s)) = O →
   length (downloads (run evs (handleStartRecording true s)))
   = S (length (downloads s)) ∧
   tracksReleased (run evs (handleStartRecording true s)) = S (tracksReleased s) ∧
   isRecording (run evs (handleStartRecording true s)) = false).
Proof.
  intros Hidle Hevs.
  pose proof (run_accounted _ _ evs _ Hevs (start_accounted s Hidle))
    as (Hone & Hrel & Hle & Hbtn).
  split_and!; [done| |lia|lia|].
  - intros t Ht. unfold handleStopRecording, stop_if_active.
    by destruct (mediaRecorder t) as [[]|].
  - intros Hstop Hq.
    pose proof (run_stop_request evs (handleStartRecording true s) Hevs Hstop) as Hl.
    rewrite Hq, Hl in Hone. split_and!; [lia|lia|].
    rewrite Hbtn. apply negb_false_iff, Nat.ltb_lt. lia.
Qed.

End RecordingFacts.

Lemma recording_single_artifact_witness :
  let s := Recording.run
             [Recording.DataAvailable 7; Recording.TrackEnded;
              Recording.StopRecording; Recording.TracksAllEnded;
              Recording.DispatchStop; Recording.StopRecording;
              Recording.DispatchStop]
             (Recording.handleStartRecording true Recording.mounted) in
  length (Recording.downloads s) = 1%nat ∧
  Recording.tracksReleased s = 1%nat ∧
  Recording.isRecording s = false.
Proof.
  apply (recording_single_artifact Recording.mounted
           [Recording.DataAvailable 7; Recording.TrackEnded;
            Recording.StopRecording; Recording.TracksAllEnded;
            Recording.DispatchStop; Recording.StopRecording;
            Recording.DispatchStop]).
  - split_and!; done.
  - reflexivity.
  - reflexivity.
  - reflexivity.
Defined.

(** * Further properties *)

(** ** The snapshot cache, over whole sessions *)

Section CacheFacts.
Import GeminiService.
Variable generateContent : nat → Z → ApiOutcome.
Variable JSON_parse : string → option HistoricalData.

Local Abbreviation fetch := (fetchHistoricalContext generateContent JSON_parse).
Local Abbreviation fails := (fetch_fails generateContent JSON_parse).
Local Abbreviation session := (GeminiService.session generateContent JSON_parse).

(** What one call does to the world, whichever path it takes. *)
Lemma fetch_cases (y : Z) (w : World) :
  (∃ l, cache w !! y = Some l ∧ fetch y w = (l, w)) ∨
  (cache w !! y = None ∧
   ∃ d, year d = y ∧
     (fetch y w = (length (heap w),
                   {| heap := heap w ++ [d];
                      cache := <[y := length (heap w)]> (cache w);
                      calls := calls w ++ [y] |}) ∨
      fetch y w = (length (heap w),
                   {| heap := heap w ++ [d]; cache := cache w;
                      calls := calls w ++ [y] |}))).
Proof.
  unfold fetchHistoricalContext. destruct (cache w !! y) as [l|] eqn:Hc.
  - left. eauto.
  - right. split; [done|]. simpl. unfold try_block.
    destruct (generateContent _ _) as [|text]; [by exists (fallback y); eauto|].
    destruct (truthy text) as [s|]; [|by exists (fallback y); eauto].
    destruct (JSON_parse s) as [d0|]; [|by exists (fallback y); eauto].
    simpl. eexists {| year := y |}. split; [done|]. by left.
Qed.

Lemma fetch_keeps_sound (y : Z) (w : World) :
  cache_sound w → cache_sound (fetch y w).2.
Proof.
  intros Hw. destruct (fetch_cases y w) as [(l & _ & ->)|(Hc & d & Hy & [->| ->])];
    [done| |]; simpl; intros z l Hz; simpl in Hz.
  - destruct (decide (y = z)) as [->|Hne].
    + rewrite lookup_insert_eq in Hz. injection Hz as <-.
      exists d. split; [|done]. simpl. by rewrite lookup_app_r, Nat.sub_diag.
    + rewrite lookup_insert_ne in Hz by done.
      destruct (Hw z l Hz) as (d' & Hd' & Hyear). exists d'.
      split; [|done]. simpl. by apply lookup_app_l_Some.
  - destruct (Hw z l Hz) as (d' & Hd' & Hyear). exists d'.
    split; [|done]. simpl. by apply lookup_app_l_Some.
Qed.

Lemma session_keeps_sound (ys : list Z) (w : World) :
  cache_sound w → cache_sound (session ys w).
Proof.
  revert w. induction ys as [|y ys IH]; intros w Hw; [done|].
  simpl. by apply IH, fetch_keeps_sound.
Qed.

Lemma fetch_returns_year (y : Z) (w : World) :
  cache_sound w →
  ∃ l w' d, fetch y w = (l, w') ∧ heap w' !! l = Some d ∧ year d = y.
Proof.
  intros Hw. destruct (fetch_cases y w) as [(l & Hc & ->)|(Hc & d & Hy & [->| ->])].
  - destruct (Hw y l Hc) as (d & Hd & Hy). eauto 10.
  - eexists _, _, d. split_and!; [done| |done]. simpl.
    by rewrite lookup_app_r, Nat.sub_diag.
  - eexists _, _, d. split_and!; [done| |done]. simpl.
    by rewrite lookup_app_r, Nat.sub_diag.
Qed.

Lemma session_from_loaded_sound (ys : list Z) :
  cache_sound (session ys loaded).
Proof. apply session_keeps_sound. intros z l Hz. done. Qed.

(** [X1] At any point of a session the call for a year returns a reference
    to an object that exists and that carries the year asked, whether it was
    served from the cache, fetched, or made up as the fallback; and every
    entry of the cache refers to an object carrying the year of its key. *)
Theorem snapshot_year_matches_request (ys : list Z) (y : Z) :
  cache_sound (session ys loaded) ∧
  ∃ l w' d, fetch y (session ys loaded) = (l, w') ∧
            heap w' !! l = Some d ∧ year d = y.
Proof.
  split; [apply session_from_loaded_sound|].
  apply fetch_returns_year, session_from_loaded_sound.
Qed.

Lemma fetch_grows (y : Z) (w : World) :
  cache w ⊆ cache (fetch y w).2 ∧
  heap w `prefix_of` heap (fetch y w).2 ∧
  calls w `prefix_of` calls (fetch y w).2.
Proof.
  destruct (fetch_cases y w) as [(l & _ & ->)|(Hc & d & Hy & [->| ->])]; simpl.
  - done.
  - split_and!; [by apply insert_subseteq|by eexists..].
  - split_and!; [done|by eexists..].
Qed.

(** Over calls made one after another, each awaited before the next, an
    entry is neither evicted nor redirected, the objects allocated so far
    stay as they are, and the log of external calls is only extended. *)
Lemma session_append_only (ys : list Z) (w : World) :
  cache w ⊆ cache (session ys w) ∧
  heap w `prefix_of` heap (session ys w) ∧
  calls w `prefix_of` calls (session ys w).
Proof.
  revert w. induction ys as [|y ys IH]; intros w; [done|].
  simpl. destruct (fetch_grows y w) as (Hc & Hh & Hl).
  destruct (IH (fetch y w).2) as (Hc' & Hh' & Hl').
  split_and!; by etrans.
Qed.

Lemma async_exec_grows (ev : GeminiServiceAsync.Event)
    (a : GeminiServiceAsync.State) :
  dom (cache (GeminiServiceAsync.world a))
  ⊆ dom (cache (GeminiServiceAsync.world (GeminiServiceAsync.exec JSON_parse ev a))) ∧
  heap (GeminiServiceAsync.world a)
  `prefix_of` heap (GeminiServiceAsync.world (GeminiServiceAsync.exec JSON_parse ev a)) ∧
  calls (GeminiServiceAsync.world a)
  `prefix_of` calls (GeminiServiceAsync.world (GeminiServiceAsync.exec JSON_parse ev a)).
Proof.
  destruct ev as [y|i r]; simpl.
  - destruct (cache (GeminiServiceAsync.world a) !! y); simpl; [done|].
    split_and!; [done|done|by eexists].
  - destruct (GeminiServiceAsync.inflight a !! i) as [y|]; [|done].
    destruct (try_block JSON_parse y r (GeminiServiceAsync.world a))
      as [[l w]|] eqn:Ht; simpl.
    + apply try_block_Some in Ht as (Hc & Hcalls & _ & d & Hh & _).
      rewrite Hc, Hcalls, Hh, dom_insert_L.
      split_and!; [set_solver|by eexists|done].
    + split_and!; [done|by eexists|done].
Qed.

(** [X2] Whichever way calls overlap, the cache never loses a year: under
    any interleaving of calls and answers of the service, every year that is
    in the cache stays in it, the objects allocated so far stay as they
    are, and the log of external calls is only extended. When the calls are
    made one after another, each awaited before the next, the entry of a
    year is not redirected to another object either. *)
Theorem cache_never_evicts (evs : list GeminiServiceAsync.Event)
    (a : GeminiServiceAsync.State) (ys : list Z) (w : World) :
  (dom (cache (GeminiServiceAsync.world a))
   ⊆ dom (cache (GeminiServiceAsync.world (GeminiServiceAsync.run JSON_parse evs a))) ∧
   heap (GeminiServiceAsync.world a)
   `prefix_of` heap (GeminiServiceAsync.world (GeminiServiceAsync.run JSON_parse evs a)) ∧
   calls (GeminiServiceAsync.world a)
   `prefix_of` calls (GeminiServiceAsync.world (GeminiServiceAsync.run JSON_parse evs a))) ∧
  cache w ⊆ cache (session ys w).
Proof.
  split; [|apply session_append_only].
  revert a. induction evs as [|ev evs IH]; intros a; [done|].
  destruct (async_exec_grows ev a) as (Hc & Hh & Hl).
  destruct (IH (GeminiServiceAsync.exec JSON_parse ev a)) as (Hc' & Hh' & Hl').
  change (GeminiServiceAsync.run JSON_parse (ev :: evs) a)
    with (GeminiServiceAsync.run JSON_parse evs (GeminiServiceAsync.exec JSON_parse ev a)).
  split_and!; by etrans.
Qed.

Lemma fetch_asks_only_requested (y : Z) (w : World) :
  calls (fetch y w).2 = calls w ∨ calls (fetch y w).2 = calls w ++ [y].
Proof.
  destruct (fetch_cases y w) as [(l & _ & ->)|(Hc & d & Hy & [->| ->])]; auto.
Qed.

(** [X3] The external service is asked at most once per call, and only for
    years that were requested: after the calls for [ys] the log has grown by
    at most the number of calls, and every year it gained is one of [ys]. *)
Theorem service_asked_only_when_requested (ys : list Z) (w : World) :
  (length (calls (session ys w)) ≤ length (calls w) + length ys)%nat ∧
  ∀ z, z ∈ calls (session ys w) → z ∈ calls w ∨ z ∈ ys.
Proof.
  revert w. induction ys as [|y ys IH]; intros w.
  - simpl. split; [lia|auto].
  - simpl. destruct (IH (fetch y w).2) as [Hlen Hin].
    destruct (fetch_asks_only_requested y w) as [Heq|Heq]; rewrite Heq in *.
    + split; [lia|]. intros z Hz. destruct (Hin z Hz); [auto|].
      right. by apply list_elem_of_further.
    + rewrite length_app in Hlen. simpl in Hlen. split; [lia|].
      intros z Hz. destruct (Hin z Hz) as [Hz'|Hz'].
      * apply elem_of_app in Hz' as [?|Hz']; [auto|].
        apply list_elem_of_singleton in Hz' as ->. right. apply list_elem_of_here.
      * right. by apply list_elem_of_further.
Qed.

(** [X4] When the year is not cached and the service answers with a text
    that parses, the object returned and cached is the parsed one with its
    year replaced by the year asked; summary and regimes are kept. *)
Theorem fetched_year_is_overridden (y : Z) (w : World) (s : string)
    (d0 : HistoricalData) :
  cache w !! y = None →
  generateContent (length (calls w)) y = Response (Some s) →
  s ≠ EmptyString →
  JSON_parse s = Some d0 →
  ∃ l w', fetch y w = (l, w') ∧
    cache w' !! y = Some l ∧
    heap w' !! l = Some {| year := y; summary := summary d0;
                           regimes := regimes d0 |}.
Proof.
  intros Hc Hr Hs Hp. unfold fetchHistoricalContext, try_block.
  rewrite Hc, Hr. simpl. rewrite decide_False by done. rewrite Hp. simpl.
  eexists _, _. split; [done|]. simpl. rewrite lookup_insert_eq.
  split; [done|]. by rewrite lookup_app_r, Nat.sub_diag.
Qed.

End CacheFacts.

Lemma fetched_year_is_overridden_witness :
  ∃ l w',
    GeminiService.fetchHistoricalContext steady_service sample_parse 1000
      GeminiService.loaded = (l, w') ∧
    GeminiService.cache w' !! 1000 = Some l ∧
    GeminiService.heap w' !! l
    = Some {| year := 1000; summary := "s"; regimes := [] |}.
Proof.
  apply (fetched_year_is_overridden steady_service sample_parse 1000
           GeminiService.loaded "{}"
           {| year := 0; summary := "s"; regimes := [] |}).
  - reflexivity.
  - reflexivity.
  - discriminate.
  - reflexivity.
Defined.

(** ** The timeline commit *)

(** Case analysis on the tests of [commitInput], innermost first. *)
Ltac split_tests :=
  rewrite ?Z.gtb_ltb;
  repeat match goal with
         | |- context [?a <? ?b] =>
             lazymatch constr:((a, b)) with
             | context [Z.ltb] => fail
             | context [decide] => fail
             | _ => destruct (Z.ltb_spec a b)
             end
         | |- context [decide (?a = ?b)] =>
             lazymatch a with
             | context [Z.ltb] => fail
             | _ => destruct (decide (a = b))
             end
         end.

Lemma commitInput_bounds (min max : Z) (val : option Z) :
  min ≤ max → max ≠ 0 → min ≤ Timeline.commitInput min max val ≤ max.
Proof.
  intros Hle Hmax. unfold Timeline.commitInput.
  destruct val as [v|]; cbv zeta; split_tests; lia.
Qed.

(** [X5] With bounds in order and an upper bound other than 0, the value
    committed lies within the bounds and is not 0, whatever was typed or
    dragged, a [NaN] included. *)
Theorem commitInput_within_bounds (min max : Z) (val : option Z) :
  min ≤ max → max ≠ 0 →
  min ≤ Timeline.commitInput min max val ≤ max ∧
  Timeline.commitInput min max val ≠ 0.
Proof.
  intros Hle Hmax. unfold Timeline.commitInput.
  destruct val as [v|]; cbv zeta; split_tests; lia.
Qed.

Lemma commitInput_within_bounds_witness :
  -2000 ≤ Timeline.commitInput (-2000) 2000 (Some 5000) ≤ 2000 ∧
  Timeline.commitInput (-2000) 2000 (Some 5000) ≠ 0.
Proof. apply (commitInput_within_bounds (-2000) 2000 (Some 5000)); lia. Defined.

(** [X6] Committing a committed value again changes nothing, for any
    bounds, also when they are out of order or exclude every value but 0. *)
Theorem commitInput_idempotent (min max : Z) (val : option Z) :
  Timeline.commitInput min max (Some (Timeline.commitInput min max val))
  = Timeline.commitInput min max val.
Proof.
  unfold Timeline.commitInput.
  destruct val as [v|]; cbv zeta; split_tests; lia.
Qed.

(** ** Year labels *)

(** [X7] Two years have the same label only if they are the same year: a
    year before the era and the year of the same number in it never read
    alike. *)
Theorem formatYear_injective (y1 y2 : Z) :
  Format.formatYear y1 = Format.formatYear y2 → y1 = y2.
Proof.
  unfold Format.formatYear.
  destruct (Z.ltb_spec y1 0), (Z.ltb_spec y2 0); intros Heq.
  - apply (inj (String.app _)), (inj pretty) in Heq. lia.
  - cbn [String.app] in Heq. discriminate Heq.
  - cbn [String.app] in Heq. discriminate Heq.
  - by apply (inj (String.app _)), (inj pretty) in Heq.
Qed.

Lemma formatYear_injective_witness : (-44 + 44) = 0.
Proof.
  apply (formatYear_injective (-44 + 44) 0). reflexivity.
Defined.

(** ** The region index and what is painted *)

Section MapFacts.
Import InteractiveMap.

Lemma index_fold_sound (rs : list HistoricalRegime) (m : gmap string Entry)
    (iso : string) (e : Entry) :
  foldl (λ m r, set_codes r m) m rs !! iso = Some e →
  m !! iso = Some e ∨ (regime e ∈ rs ∧ iso ∈ isoCodes (regime e)).
Proof.
  revert m. induction rs as [|r rs IH]; intros m H; [by left|].
  simpl in H. apply IH in H as [H|[Hin Hiso]].
  - rewrite set_codes_lookup in H. case_decide as Hr; [|by left].
    injection H as <-. right. split; [apply list_elem_of_here|done].
  - right. split; [by apply list_elem_of_further|done].
Qed.

(** A code that has an owner keeps having one. *)
Lemma index_fold_keeps (rs : list HistoricalRegime) (m : gmap string Entry)
    (iso : string) :
  is_Some (m !! iso) → is_Some (foldl (λ m r, set_codes r m) m rs !! iso).
Proof.
  revert m. induction rs as [|r rs IH]; intros m Hm; [done|].
  simpl. apply IH. rewrite set_codes_lookup. by case_decide.
Qed.

Lemma index_lookup_sound (d : HistoricalData) (iso : string) (e : Entry) :
  countryColorMap (Some d) !! iso = Some e →
  regime e ∈ regimes d ∧ iso ∈ isoCodes (regime e).
Proof. intros H. by apply index_fold_sound in H as [H|H]. Qed.

Lemma index_lookup_none (d : HistoricalData) (iso : string) :
  countryColorMap (Some d) !! iso = None ↔
  ∀ r, r ∈ regimes d → iso ∉ isoCodes r.
Proof.
  split.
  - intros Hnone r Hr Hiso.
    apply list_elem_of_split in Hr as (earlier & later & Hd).
    assert (is_Some (countryColorMap (Some d) !! iso)) as [e He];
      [|by rewrite Hnone in He].
    unfold countryColorMap. rewrite Hd, foldl_app. simpl.
    apply index_fold_keeps. rewrite set_codes_lookup.
    rewrite decide_True by done. eauto.
  - intros Hnone. unfold countryColorMap. by rewrite index_skips.
Qed.

(** [X8] The index built from a snapshot holds exactly the codes that some
    regime of the snapshot lists, and the regime it gives for a code is a
    regime of that snapshot that lists the code. *)
Theorem index_sound_and_complete (d : HistoricalData) (iso : string) :
  (∀ e, countryColorMap (Some d) !! iso = Some e →
        regime e ∈ regimes d ∧ iso ∈ isoCodes (regime e)) ∧
  (countryColorMap (Some d) !! iso = None ↔
   ∀ r, r ∈ regimes d → iso ∉ isoCodes r).
Proof.
  split; [apply index_lookup_sound|apply index_lookup_none].
Qed.

(** [X9] What is painted agrees with what a click selects: a feature is
    painted in the colour of the regime that a click on it selects, and in
    the neutral colour when a click on it selects no regime; a feature that
    no regime of the snapshot lists, or any feature while there is no
    snapshot, is neutral and selects no regime. *)
Theorem fill_agrees_with_click (hd : option HistoricalData) (f : GeoJsonFeature) :
  fill (countryColorMap hd) f
  = match (path_click (countryColorMap hd) f).1 with
    | Some r => color r
    | None => "#cbd5e1"
    end ∧
  ((∀ d, hd = Some d → ∀ r, r ∈ regimes d → id f ∉ isoCodes r) →
   fill (countryColorMap hd) f = "#cbd5e1" ∧
   click (countryColorMap hd) (OnFeature f) = [(None, properties_name f)]).
Proof.
  split.
  - unfold fill, path_click. simpl. by destruct (countryColorMap hd !! id f).
  - intros Hnone.
    assert (countryColorMap hd !! id f = None) as Hidx.
    { destruct hd as [d|]; [|done].
      apply index_lookup_none. by apply Hnone. }
    unfold fill, click, path_click. by rewrite Hidx.
Qed.

End MapFacts.

Lemma index_sound_and_complete_witness :
  InteractiveMap.regime {| InteractiveMap.regime := normans |} ∈ regimes snapshot_1000 ∧
  "GBR" ∈ isoCodes (InteractiveMap.regime {| InteractiveMap.regime := normans |}).
Proof.
  apply (index_sound_and_complete snapshot_1000 "GBR"). reflexivity.
Defined.

Lemma fill_agrees_with_click_witness :
  InteractiveMap.fill (InteractiveMap.countryColorMap (Some (GeminiService.fallback 1000)))
    france = "#cbd5e1" ∧
  InteractiveMap.click (InteractiveMap.countryColorMap (Some (GeminiService.fallback 1000)))
    (InteractiveMap.OnFeature france) = [(None, "France")].
Proof.
  apply (fill_agrees_with_click (Some (GeminiService.fallback 1000)) france).
  intros d [= <-] r Hr. by apply elem_of_nil in Hr.
Defined.

(** ** Clicks, the selection and the info panel *)

Section SelectionFacts.
Import InteractiveMap.

(** [X10] Whatever is clicked, the regime selected afterwards, if any, is a
    regime of the snapshot on display that lists the code of the feature
    clicked, and the area name selected is the name of that feature (or
    "Ocean" for the background); without a snapshot no regime can be
    selected. *)
Theorem click_selects_displayed_regime (s : App.State) (t : Target) :
  (∀ r, App.selectedRegime (App.step (App.MapClick t) s) = Some r →
     ∃ d f, App.historicalData s = Some d ∧ t = OnFeature f ∧
            r ∈ regimes d ∧ id f ∈ isoCodes r) ∧
  App.selectedAreaName (App.step (App.MapClick t) s)
  = Some (match t with OnFeature f => properties_name f | OnBackground => "Ocean" end) ∧
  App.historicalData (App.step (App.MapClick t) s) = App.historicalData s ∧
  App.fetches (App.step (App.MapClick t) s) = App.fetches s.
Proof.
  destruct t as [f|]; simpl; (split; [|done]).
  - intros r Hr.
    destruct (countryColorMap (App.historicalData s) !! id f) as [e|] eqn:He;
      [|done].
    injection Hr as <-. destruct (App.historicalData s) as [d|]; [|done].
    exists d, f. by destruct (index_lookup_sound d (id f) e He).
  - done.
Qed.

End SelectionFacts.

Lemma click_selects_displayed_regime_witness :
  ∃ d f, App.historicalData showing_1000 = Some d ∧
         InteractiveMap.OnFeature germany = InteractiveMap.OnFeature f ∧
         franks ∈ regimes d ∧ id f ∈ isoCodes franks.
Proof.
  apply (click_selects_displayed_regime showing_1000
           (InteractiveMap.OnFeature germany)).
  reflexivity.
Defined.

Section PanelFacts.
Import InteractiveMap InfoPanel.

(** [X11] With a snapshot on display and no load in progress, the info
    panel after a click shows the overview of that snapshot and: no detail
    box after a click on the background, or on a feature whose display name
    is "Ocean"; for any other feature with an owning regime, a detail box
    with the colour and the name of that regime and its events (or the "no
    events" line when it has none); for any other feature without owner, a
    detail box titled with the display name, unless that name is empty. *)
Theorem detail_box_after_click (s : App.State) (d : HistoricalData) :
  App.historicalData s = Some d → App.loading s = false →
  (∀ t, ∃ detail,
     of_app (App.step (App.MapClick t) s) = Panel detail (overview_box d)) ∧
  detail_of (of_app (App.step (App.MapClick OnBackground) s)) = None ∧
  (∀ f, properties_name f = "Ocean" →
     detail_of (of_app (App.step (App.MapClick (OnFeature f)) s)) = None) ∧
  (∀ f e, properties_name f ≠ "Ocean" →
     countryColorMap (Some d) !! id f = Some e →
     detail_of (of_app (App.step (App.MapClick (OnFeature f)) s))
     = Some {| swatch := Some (color (regime e));
               title := name (regime e);
               body := match events (regime e) with
                       | [] => NoEvents (Format.formatYear (year d))
                       | _ :: _ => Events (Format.formatYear (year d))
                                     (events (regime e))
                       end |}) ∧
  (∀ f, properties_name f ≠ "Ocean" →
     countryColorMap (Some d) !! id f = None →
     detail_of (of_app (App.step (App.MapClick (OnFeature f)) s))
     = if decide (properties_name f = EmptyString) then None
       else Some {| swatch := None; title := properties_name f;
                    body := Unclassified |}).
Proof.
  intros Hd Hl.
  assert (∀ sel, of_app (App.handleRegimeClick sel s)
                 = Panel (if shows_detail sel.1 (Some sel.2)
                          then Some (detail_box d sel.1 (Some sel.2)) else None)
                     (overview_box d)) as Hview.
  { intros sel. unfold of_app, render. simpl. by rewrite Hl, Hd. }
  assert (∀ f, App.step (App.MapClick (OnFeature f)) s
               = App.handleRegimeClick (path_click (countryColorMap (Some d)) f) s)
    as Hstep.
  { intros f. unfold App.step. by rewrite Hd. }
  change (App.step (App.MapClick OnBackground) s)
    with (App.handleRegimeClick svg_click s).
  split_and!.
  - intros [f|]; [rewrite Hstep|change (App.step (App.MapClick OnBackground) s)
                                  with (App.handleRegimeClick svg_click s)];
      rewrite Hview; eauto.
  - by rewrite Hview.
  - intros f Hname. rewrite Hstep, Hview. unfold path_click, shows_detail.
    cbn [fst snd]. rewrite Hname.
    rewrite (bool_decide_eq_true_2 (Some "Ocean" = Some "Ocean")) by done.
    by rewrite andb_false_r.
  - intros f e Hname He. rewrite Hstep, Hview. unfold path_click, shows_detail.
    cbn [fst snd]. rewrite He.
    rewrite (bool_decide_eq_true_2 (is_Some (Some (regime e)))) by eauto.
    rewrite bool_decide_eq_false_2 by (intros [= ?]; done).
    cbn [orb andb negb detail_of]. unfold detail_box. cbn [fmap option_fmap option_map].
    by destruct (events (regime e)).
  - intros f Hname He. rewrite Hstep, Hview. unfold path_click, shows_detail.
    cbn [fst snd]. rewrite He.
    rewrite (bool_decide_eq_false_2 (is_Some None)) by (by intros [? ?]).
    rewrite (bool_decide_eq_false_2 (Some _ = Some "Ocean"))
      by (intros [= ?]; done).
    cbn [orb andb negb truthy]. rewrite andb_true_r. case_decide as Hempty.
    + by rewrite bool_decide_eq_true_2.
    + by rewrite bool_decide_eq_false_2.
Qed.

End PanelFacts.

Lemma detail_box_after_click_witness :
  InfoPanel.detail_of
    (InfoPanel.of_app
       (App.step (App.MapClick (InteractiveMap.OnFeature spain)) showing_1000))
  = Some {| InfoPanel.swatch := None; InfoPanel.title := "Spain";
            InfoPanel.body := InfoPanel.Unclassified |}.
Proof.
  destruct (detail_box_after_click showing_1000 snapshot_1000)
    as (_ & _ & _ & _ & Hnone); [reflexivity..|].
  apply (Hnone spain); [discriminate|reflexivity].
Defined.

Section LoadFacts.
Import GeminiService.
Variable generateContent : nat → Z → ApiOutcome.
Variable JSON_parse : string → option HistoricalData.

Lemma pending_step_keeps (e : AppPending.Event) (s : App.State) :
  App.loading (AppPending.step e s) = App.loading s ∧
  App.error (AppPending.step e s) = App.error s ∧
  App.fetches (AppPending.step e s) = App.fetches s.
Proof. by destruct e as [[f|]|y]. Qed.

Lemma pending_run_keeps (es : list AppPending.Event) (s : App.State) :
  App.loading (AppPending.run es s) = App.loading s ∧
  App.error (AppPending.run es s) = App.error s ∧
  App.fetches (AppPending.run es s) = App.fetches s.
Proof.
  revert s. induction es as [|e es IH]; intros s; [done|].
  destruct (pending_step_keeps e s) as (Hl & He & Hf).
  destruct (IH (AppPending.step e s)) as (Hl' & He' & Hf').
  change (AppPending.run (e :: es) s) with (AppPending.run es (AppPending.step e s)).
  split_and!; congruence.
Qed.

(** [X12] A load during which no other load starts or settles, whatever
    clicks on the map and moves of the slider happen while its fetch is
    pending: the panel shows the placeholder until the fetch settles; the
    fetch returns an object that carries the year asked, at any point of a
    session and whatever the service does; and once that object is set, the
    application is not loading, has no error, and has this object on
    display. When nothing at all happens while the fetch is pending, the
    current year is the year asked as well and no detail box is shown. *)
Theorem completed_load_shows_requested_year (ys : list Z) (y : Z) (s : App.State)
    (es : list AppPending.Event) :
  ∃ l w' d,
    fetchHistoricalContext generateContent JSON_parse y
      (session generateContent JSON_parse ys loaded) = (l, w') ∧
    heap w' !! l = Some d ∧ year d = y ∧
    InfoPanel.of_app (AppPending.run es (App.loadData_begin y s))
    = InfoPanel.Skeleton ∧
    App.historicalData
      (App.loadData_resume (App.Fulfilled d)
         (AppPending.run es (App.loadData_begin y s))) = Some d ∧
    App.error
      (App.loadData_resume (App.Fulfilled d)
         (AppPending.run es (App.loadData_begin y s))) = None ∧
    App.loading
      (App.loadData_resume (App.Fulfilled d)
         (AppPending.run es (App.loadData_begin y s))) = false ∧
    (es = [] →
     App.currentYear
       (App.loadData_resume (App.Fulfilled d) (App.loadData_begin y s)) = y ∧
     InfoPanel.of_app
       (App.loadData_resume (App.Fulfilled d) (App.loadData_begin y s))
     = InfoPanel.Panel None (InfoPanel.overview_box d)).
Proof.
  destruct (fetch_returns_year generateContent JSON_parse y _
              (session_from_loaded_sound generateContent JSON_parse ys))
    as (l & w' & d & Hf & Hd & Hy).
  destruct (pending_run_keeps es (App.loadData_begin y s)) as (Hl & He & _).
  exists l, w', d. split_and!; [done|done|done| |done| |done|done].
  - unfold InfoPanel.of_app, InfoPanel.render. by rewrite Hl.
  - simpl. by rewrite He.
Qed.

End LoadFacts.

Lemma completed_load_shows_requested_year_witness :
  ∃ l w' d,
    GeminiService.fetchHistoricalContext flaky_service sample_parse 1050
      (GeminiService.session flaky_service sample_parse sample_years
         GeminiService.loaded) = (l, w') ∧
    GeminiService.heap w' !! l = Some d ∧ year d = 1050 ∧
    App.currentYear
      (App.loadData_resume (App.Fulfilled d) (App.loadData_begin 1050 showing_1000))
    = 1050.
Proof.
  destruct (completed_load_shows_requested_year flaky_service sample_parse
              sample_years 1050 showing_1000 [])
    as (l & w' & d & Hf & Hd & Hy & _ & _ & _ & _ & Hquiet).
  exists l, w', d. split_and!; [exact Hf|exact Hd|exact Hy|].
  exact (proj1 (Hquiet eq_refl)).
Defined.

(** ** Playback over whole runs *)

Section PlaybackRuns.
Import Playback.

Lemma iterate_keeps_range (sy ey st y : Z) (s : State) :
  keeps_range sy ey st s → (0 ≤ st → sy ≤ y) →
  keeps_range sy ey st (iterate y ey st s).2 ∧
  ∀ l, (iterate y ey st s).1 = Some l →
       loop_endYear l = ey ∧ loop_step l = st ∧ (0 ≤ st → sy ≤ yearToLoad l).
Proof.
  intros (Hs & He & Hst & Hl & Hn) Hy. unfold iterate.
  destruct (isPlayingRef s && (y <=? ey)) eqn:Hc; simpl.
  - apply andb_prop in Hc as [_ Hle%Z.leb_le]. split.
    + split_and!; [done..|]. apply Forall_app. split; [done|].
      by apply Forall_singleton.
    + by intros l [= <-].
  - split; [by split_and!|done].
Qed.

Lemma exec_keeps_range (sy ey st : Z) (ev : Event) (s : State) :
  keeps_range sy ey st s → keeps_range sy ey st (exec ev s).
Proof.
  intros Hk. pose proof Hk as (Hs & He & Hst & Hl & Hn).
  destruct ev as [|i ok]; simpl.
  - unfold handlePlay. destruct (isPlayingRef s); [by split_and!|]. simpl.
    destruct (startYear s >? endYear s); [by split_and!|].
    assert (keeps_range sy ey st (set_playing true s)) as Hk' by (by split_and!).
    rewrite Hs, He, Hst.
    destruct (iterate_keeps_range sy ey st sy _ Hk') as [Hk2 Hloop]; [done|].
    destruct (iterate sy ey st (set_playing true s)) as [[l|] s'];
      simpl in *; [|done].
    destruct Hk2 as (? & ? & ? & ? & ?). split_and!; [done..| |done].
    apply Forall_app. split; [done|]. apply Forall_singleton. by apply Hloop.
  - destruct (loops s !! i) as [l|] eqn:Hi; [|done].
    pose proof (Forall_lookup_1 _ _ _ _ Hl Hi) as (Hle & Hlst & Hly).
    assert (∀ o s', keeps_range sy ey st s' →
              (∀ l', o = Some l' →
                 loop_endYear l' = ey ∧ loop_step l' = st ∧
                 (0 ≤ st → sy ≤ yearToLoad l')) →
              keeps_range sy ey st
                match o with
                | Some l' => set_loops (<[i := l']> (loops s')) s'
                | None => set_loops (delete i (loops s')) s'
                end) as Hput.
    { intros o s' (? & ? & ? & Hl' & ?) Ho. destruct o as [l'|].
      - split_and!; [done..| |done]. simpl. apply Forall_insert; [done|].
        by apply Ho.
      - split_and!; [done..| |done]. simpl. by apply Forall_delete. }
    unfold resume. destruct (pc l).
    + destruct ok; [|by apply (Hput None)].
      destruct (negb (isPlayingRef s)); [by apply (Hput None)|].
      apply (Hput (Some _)); [done|]. by intros l' [= <-].
    + destruct (negb (isPlayingRef s)); [by apply (Hput None)|].
      rewrite Hle, Hlst.
      destruct (iterate_keeps_range sy ey st (yearToLoad l + st) s Hk)
        as [Hk2 Hloop]; [lia|].
      destruct (iterate (yearToLoad l + st) ey st s) as [o s'].
      by apply Hput.
Qed.

Lemma run_keeps_range (sy ey st : Z) (evs : list Event) (s : State) :
  keeps_range sy ey st s → keeps_range sy ey st (run evs s).
Proof.
  revert s. induction evs as [|ev evs IH]; intros s Hk; [done|].
  simpl. by apply IH, exec_keeps_range.
Qed.

(** Years visited from one exact integer up to another are exact. *)
Lemma visited_within (y st : Z) (k : nat) :
  0 < st → safe_integer y → safe_integer (y + Z.of_nat k * st) →
  Forall safe_integer (visited y st (S k)).
Proof.
  intros Hst. revert y. induction k as [|k IH]; intros y Hy Hlast.
  - by apply Forall_singleton.
  - change (visited y st (S (S k))) with (y :: visited (y + st) st (S k)).
    rewrite Nat2Z.inj_succ in Hlast.
    assert (0 ≤ Z.of_nat k * st) by (apply Z.mul_nonneg_nonneg; lia).
    apply Forall_cons. split; [done|]. apply IH.
    + unfold safe_integer in *. lia.
    + replace (y + st + Z.of_nat k * st) with (y + Z.succ (Z.of_nat k) * st) by lia.
      done.
Qed.

(** [X13] However play is clicked and however the promises settle (in any
    order, fulfilled or rejected, with several loops alive or none), every
    year handed to [onYearChange] is at most the end year, and at least the
    start year when the step is not negative. *)
Theorem notified_years_within_range (sy ey st : Z) (evs : list Event) (y : Z) :
  y ∈ notified (run evs (mounted sy ey st)) →
  y ≤ ey ∧ (0 ≤ st → sy ≤ y).
Proof.
  intros Hy.
  assert (keeps_range sy ey st (mounted sy ey st)) as Hk.
  { split_and!; by try apply Forall_nil. }
  destruct (run_keeps_range sy ey st evs _ Hk) as (_ & _ & _ & _ & Hn).
  by apply (proj1 (Forall_forall _ _) Hn).
Qed.

(** [X14] Playback over a range of exact integers: when the component is
    idle, the start year, the end year, the step and the end year plus the
    step lie between [-2^53] and [2^53] (so that every sum the loop forms is
    exact), and the end year lies [n] whole steps (and less than [n + 1])
    after the start year, a click and the settling of the promises the loop
    waits for visit the [n + 1] years of the range in order, once each, and
    leave the component idle with no alert. *)
Theorem playback_visits_whole_range (n : nat) (s : State) :
  isPlayingRef s = false → loops s = [] →
  safe_integer (startYear s) → safe_integer (endYear s) →
  safe_integer (step s) → safe_integer (endYear s + step s) →
  startYear s + Z.of_nat n * step s ≤ endYear s
    < startYear s + Z.of_nat (S n) * step s →
  notified (run (Click :: repeat (Settle 0 true) (2 * S n)) s)
  = notified s ++ visited (startYear s) (step s) (S n) ∧
  Forall safe_integer (visited (startYear s) (step s) (S n)) ∧
  loops (run (Click :: repeat (Settle 0 true) (2 * S n)) s) = [] ∧
  isPlaying (run (Click :: repeat (Settle 0 true) (2 * S n)) s) = false ∧
  isPlayingRef (run (Click :: repeat (Settle 0 true) (2 * S n)) s) = false ∧
  alerts (run (Click :: repeat (Settle 0 true) (2 * S n)) s) = alerts s.
Proof.
  intros Href Hl Hs He Hst Hes Hrange.
  destruct (playback_visits_range n s Href Hl Hrange) as (Hn & ? & ? & ? & ?).
  split_and!; [done| |done..].
  apply visited_within; [|done|].
  - rewrite Nat2Z.inj_succ in Hrange. lia.
  - destruct Hs, He. rewrite Nat2Z.inj_succ in Hrange.
    assert (0 < step s) by lia.
    assert (0 ≤ Z.of_nat n * step s) by (apply Z.mul_nonneg_nonneg; lia).
    unfold safe_integer. lia.
Qed.

Lemma click_starts_loading (s : State) :
  isPlayingRef s = false → loops s = [] → startYear s ≤ endYear s →
  loading_year (startYear s) (exec Click s) ∧
  isPlaying (exec Click s) = true ∧
  notified (exec Click s) = notified s ++ [startYear s] ∧
  endYear (exec Click s) = endYear s ∧ step (exec Click s) = step s.
Proof.
  intros Href Hl Hle. simpl. unfold handlePlay. rewrite Href. simpl.
  rewrite Z.gtb_ltb, (proj2 (Z.ltb_ge _ _)) by lia.
  unfold iterate. simpl. rewrite (proj2 (Z.leb_le _ _)) by lia.
  simpl. unfold loading_year. simpl. by rewrite Hl.
Qed.

Lemma run_iteration_flag (y : Z) (s : State) :
  loading_year y s → y + step s ≤ endYear s →
  isPlaying (run [Settle 0 true; Settle 0 true] s) = isPlaying s.
Proof.
  intros [Href Hl] Hle. destruct s as [sy ey st ip ipr ls nt al].
  simpl in Href, Hl, Hle. subst ipr ls. cbn. unfold iterate. cbn.
  by rewrite (proj2 (Z.leb_le _ _)) by lia.
Qed.

Lemma repeat_two_last {A} (x : A) (k : nat) :
  repeat x (2 * S k) = repeat x (2 * k) ++ [x; x].
Proof.
  replace (2 * S k)%nat with (2 * k + 2)%nat by lia. by rewrite repeat_app.
Qed.

Lemma visited_snoc (y st : Z) (k : nat) :
  visited y st (S k) = visited y st k ++ [y + Z.of_nat k * st].
Proof.
  revert y. induction k as [|k IH]; intros y.
  - simpl. by rewrite Z.add_0_r.
  - change (visited y st (S (S k))) with (y :: visited (y + st) st (S k)).
    rewrite IH. simpl. do 3 f_equal. lia.
Qed.

(** [X15] With a step that is not positive the playback never ends on its
    own: after any number of iterations the loop is still waiting, the
    component still shows "playing", and one more year (the same year, or
    an earlier one) has been handed to [onYearChange] per iteration. *)
Theorem nonpositive_step_never_stops (k : nat) (s : State) :
  isPlayingRef s = false → loops s = [] →
  startYear s ≤ endYear s → step s ≤ 0 →
  isPlayingRef (run (Click :: repeat (Settle 0 true) (2 * k)) s) = true ∧
  isPlaying (run (Click :: repeat (Settle 0 true) (2 * k)) s) = true ∧
  length (loops (run (Click :: repeat (Settle 0 true) (2 * k)) s)) = 1%nat ∧
  notified (run (Click :: repeat (Settle 0 true) (2 * k)) s)
  = notified s ++ visited (startYear s) (step s) (S k).
Proof.
  intros Href Hl Hle Hst.
  destruct (click_starts_loading s Href Hl Hle) as (Hload & Hp & Hn & He & Hs).
  cbn [run foldl]. fold (run (repeat (Settle 0 true) (2 * k)) (exec Click s)).
  revert Hload Hp Hn He Hs. generalize (exec Click s). intros s1.
  intros Hload Hp Hn He Hs.
  enough (loading_year (startYear s + Z.of_nat k * step s)
            (run (repeat (Settle 0 true) (2 * k)) s1) ∧
          isPlaying (run (repeat (Settle 0 true) (2 * k)) s1) = true ∧
          endYear (run (repeat (Settle 0 true) (2 * k)) s1) = endYear s ∧
          step (run (repeat (Settle 0 true) (2 * k)) s1) = step s ∧
          notified (run (repeat (Settle 0 true) (2 * k)) s1)
          = notified s ++ visited (startYear s) (step s) (S k))
    as ([Hr Hloops] & ? & _ & _ & ?).
  { split_and!; [done|done|by rewrite Hloops|done]. }
  induction k as [|k IH].
  - simpl. rewrite Z.add_0_r. by split_and!.
  - destruct IH as (Hload' & Hp' & He' & Hs' & Hn').
    rewrite repeat_two_last. unfold run at 1 2 3 4 5. rewrite foldl_app.
    fold (run (repeat (Settle 0 true) (2 * k)) s1).
    set (sk := run (repeat (Settle 0 true) (2 * k)) s1) in *.
    fold (run [Settle 0 true; Settle 0 true] sk).
    assert (0 ≤ Z.of_nat k * - step s) by (apply Z.mul_nonneg_nonneg; lia).
    destruct (run_iteration _ sk Hload') as (_ & He2 & Hs2 & _ & Hit).
    rewrite (proj2 (Z.leb_le _ _)) in Hit by (rewrite He', Hs'; lia).
    destruct Hit as [Hload2 Hn2].
    rewrite Hs' in Hload2, Hn2.
    replace (startYear s + Z.of_nat k * step s + step s)
      with (startYear s + Z.of_nat (S k) * step s) in Hload2, Hn2 by lia.
    split_and!; [done| |congruence|congruence|].
    + rewrite run_iteration_flag with (y := startYear s + Z.of_nat k * step s);
        [done|done|rewrite He', Hs'; lia].
    + by rewrite Hn2, Hn', <- app_assoc, <- visited_snoc.
Qed.

Lemma resume_keeps_loops (ok : bool) (l : Loop) (s : State) :
  loops (resume ok l s).2 = loops s ∧
  ((resume ok l s).1 = None → (resume ok l s).2 = finally s) ∧
  ((resume ok l s).1 = None → notified (resume ok l s).2 = notified s).
Proof.
  unfold resume, iterate.
  destruct (pc l), ok, (isPlayingRef s); simpl; try done;
    by destruct (_ <=? _).
Qed.

(** [X16] When a loop returns on being resumed (its load was rejected, or
    the flag was cleared, or it ran past the end year), it clears the flag
    for everybody: a rejected load always makes the loop return; and after
    any return the component shows "idle", the returning loop has notified
    nothing more, and no loop that is still suspended will notify anything
    unless play is clicked again. *)
Theorem returning_loop_stops_all (s : State) (i : nat) (ok : bool)
    (evs : list Event) :
  (length (loops (exec (Settle i ok) s)) < length (loops s))%nat →
  forallb is_settle evs = true →
  isPlayingRef (exec (Settle i ok) s) = false ∧
  isPlaying (exec (Settle i ok) s) = false ∧
  notified (run evs (exec (Settle i ok) s)) = notified s ∧
  (∀ j l, loops s !! j = Some l → pc l = AwaitLoad →
     (length (loops (exec (Settle j false) s)) < length (loops s))%nat).
Proof.
  intros Hlen Hevs. split_and!.
  1-3: simpl in *; destruct (loops s !! i) as [l|] eqn:Hi; [|lia];
    destruct (resume_keeps_loops ok l s) as (Hl & Hfin & Hn);
    destruct (resume ok l s) as [[l'|] s'] eqn:Hr; simpl in *;
    [rewrite length_insert, Hl in Hlen; lia|];
    rewrite (Hfin eq_refl) in *.
  - done.
  - done.
  - destruct (run_settle_stopped evs (set_loops (delete i (loops (finally s)))
                                        (finally s)) eq_refl Hevs) as [-> _].
    done.
  - intros j l Hj Hpc. simpl. rewrite Hj. unfold resume. rewrite Hpc. simpl.
    rewrite length_delete by eauto. apply lookup_lt_Some in Hj. lia.
Qed.

(** [X17] Unmounting the component clears the flag and nothing else: the
    loops stay suspended, and whatever settles afterwards no further year is
    handed to [onYearChange]. *)
Theorem unmount_cancels_playback (s : State) (evs : list Event) :
  forallb is_settle evs = true →
  loops (unmount s) = loops s ∧
  notified (run evs (unmount s)) = notified s ∧
  isPlayingRef (run evs (unmount s)) = false.
Proof.
  intros Hevs. split; [done|].
  by apply (run_settle_stopped evs (unmount s) eq_refl Hevs).
Qed.

End PlaybackRuns.

(** ** Recording over the life of the component *)

Section RecordingRuns.
Import Recording.

Lemma exec_collects (ev : Event) (t : State) :
  is_start ev = false → is_dispatch ev = false →
  recordedChunks (exec ev t)
  = recordedChunks t ++ filter (λ n, 0 < n)%nat (delivered [ev]) ∧
  downloads (exec ev t) = downloads t.
Proof.
  destruct ev as [g| |size| | |]; try done; intros _ _.
  - change (delivered [StopRecording]) with (@nil nat).
    rewrite filter_nil, app_nil_r. cbn [exec].
    unfold handleStopRecording, stop_if_active.
    by destruct (mediaRecorder t) as [[]|].
  - change (delivered [DataAvailable size]) with [size].
    rewrite filter_cons, filter_nil. cbn [exec].
    unfold ondataavailable. cbn [recordedChunks downloads].
    destruct (Nat.ltb_spec 0 size); case_decide; try lia; by rewrite ?app_nil_r.
  - change (delivered [TrackEnded]) with (@nil nat).
    rewrite filter_nil, app_nil_r. cbn [exec]. unfold onended, stop_if_active.
    by destruct (mediaRecorder t) as [[]|].
  - change (delivered [TracksAllEnded]) with (@nil nat).
    rewrite filter_nil, app_nil_r. cbn [exec].
    by destruct (mediaRecorder t) as [[]|].
Qed.

Lemma delivered_cons (ev : Event) (evs : list Event) :
  delivered (ev :: evs) = delivered [ev] ++ delivered evs.
Proof. apply (omap_app _ [ev] evs). Qed.

Lemma run_collects (evs : list Event) (t : State) :
  forallb (λ ev, negb (is_start ev) && negb (is_dispatch ev)) evs = true →
  recordedChunks (run evs t)
  = recordedChunks t ++ filter (λ n, 0 < n)%nat (delivered evs) ∧
  downloads (run evs t) = downloads t.
Proof.
  revert t. induction evs as [|ev evs IH]; intros t Hevs.
  - simpl. by rewrite app_nil_r.
  - simpl in Hevs. apply andb_prop in Hevs as [Hev Hevs].
    apply andb_prop in Hev as [Hs%negb_true_iff Hd%negb_true_iff].
    destruct (exec_collects ev t Hs Hd) as [Hc Hdl].
    destruct (IH (exec ev t) Hevs) as [Hc' Hdl'].
    change (run (ev :: evs) t) with (run evs (exec ev t)).
    rewrite Hc', Hdl', Hc, Hdl. split; [|done].
    rewrite <- app_assoc. f_equal.
    by rewrite (delivered_cons ev evs), filter_app.
Qed.

(** [X19] The artifact of a recording holds the chunks the platform
    delivered between the start and the dispatch of the 'stop' event, in the
    order of delivery and without the empty ones (after whatever was left in
    the buffer at the start); and the buffer is empty afterwards. *)
Theorem artifact_holds_delivered_chunks (s : State) (evs : list Event) :
  idle s →
  forallb (λ ev, negb (is_start ev) && negb (is_dispatch ev)) evs = true →
  existsb is_stop_request evs = true →
  downloads (exec DispatchStop (run evs (handleStartRecording true s)))
  = downloads s ++ [recordedChunks s ++ filter (λ n, 0 < n)%nat (delivered evs)] ∧
  recordedChunks (exec DispatchStop (run evs (handleStartRecording true s))) = [] ∧
  isRecording (exec DispatchStop (run evs (handleStartRecording true s))) = false.
Proof.
  intros Hidle Hevs Hstop.
  assert (forallb (λ ev, negb (is_start ev)) evs = true) as Hns.
  { clear -Hevs. induction evs as [|ev evs IH]; [done|]. simpl in *.
    apply andb_prop in Hevs as [[-> _]%andb_prop ?]. by apply IH. }
  destruct (run_collects evs (handleStartRecording true s) Hevs) as [Hc Hd].
  pose proof (run_accounted _ _ evs _ Hns (start_accounted s Hidle))
    as (Hone & _).
  pose proof (run_stop_request evs (handleStartRecording true s) Hns Hstop) as Hl.
  rewrite Hd, Hl in Hone.
  change (downloads (handleStartRecording true s)) with (downloads s) in *.
  change (recordedChunks (handleStartRecording true s))
    with (recordedChunks s) in *.
  assert (stopQueued (run evs (handleStartRecording true s)) = 1%nat) as Hq by lia.
  cbn [exec]. rewrite Hq. unfold onstop.
  cbn [downloads recordedChunks isRecording]. by rewrite Hd, Hc.
Qed.

Lemma exec_idle (ev : Event) (t : State) :
  is_start ev = false → idle t →
  idle (exec ev t) ∧ downloads (exec ev t) = downloads t ∧
  tracksReleased (exec ev t) = tracksReleased t ∧ alerts (exec ev t) = alerts t.
Proof.
  intros Hev (Hrec & Hmr & Hq). unfold idle.
  destruct ev as [g| |size| | |]; try done; simpl;
    unfold handleStopRecording, onended, stop_if_active; rewrite ?Hq;
    destruct (mediaRecorder t) as [[]|] eqn:E; simpl; rewrite ?E;
    try (by destruct Hmr); done.
Qed.

(** [X20] While no recording is in progress, stop requests from the button
    or the platform and the dispatch of events change nothing that counts:
    no artifact is downloaded, no track is released, no alert is shown, and
    the component stays idle. *)
Theorem stop_when_idle_does_nothing (s : State) (evs : list Event) :
  idle s → forallb (λ ev, negb (is_start ev)) evs = true →
  idle (run evs s) ∧ downloads (run evs s) = downloads s ∧
  tracksReleased (run evs s) = tracksReleased s ∧ alerts (run evs s) = alerts s.
Proof.
  revert s. induction evs as [|ev evs IH]; intros s Hidle Hevs; [done|].
  simpl in Hevs. apply andb_prop in Hevs as [Hev%negb_true_iff Hevs].
  destruct (exec_idle ev s Hev Hidle) as (Hi & Hd & Hr & Ha).
  destruct (IH (exec ev s) Hi Hevs) as (? & Hd' & Hr' & Ha'). simpl.
  split_and!; [done|congruence..].
Qed.

End RecordingRuns.

Section RecordingAsyncFacts.
Import RecordingAsync.

Lemma live_after_stop (rs : list Recording.RecorderState) (i : nat) :
  rs !! i = Some Recording.recording →
  (length (filter (λ r, r = Recording.recording) (<[i := Recording.inactive]> rs)) + 1
   = length (filter (λ r, r = Recording.recording) rs))%nat.
Proof.
  revert i. induction rs as [|r rs IH]; intros i Hi; [done|].
  destruct i as [|i].
  - injection Hi as ->. cbn [insert list_insert].
    rewrite !filter_cons, decide_False, decide_True by done. simpl. lia.
  - cbn [insert list_insert]. rewrite !filter_cons.
    specialize (IH i Hi). case_decide; cbn [length]; by rewrite <- IH.
Qed.

Lemma recorder_stop_one_at_a_time (i : nat) (s : State) :
  recorders s !! i = Some Recording.recording →
  one_at_a_time s → one_at_a_time (recorder_stop i s).
Proof.
  intros Hi (Hrel & Hone & Hbtn). unfold one_at_a_time, live in *. simpl.
  pose proof (live_after_stop _ _ Hi) as Hl. rewrite length_app. simpl.
  split_and!; [done|lia|]. rewrite Hbtn. apply bool_decide_ext. lia.
Qed.

Lemma stop_if_active_one_at_a_time (s : State) :
  one_at_a_time s → one_at_a_time (stop_if_active s).
Proof.
  intros Hs. unfold stop_if_active. destruct (current s) as [c|]; [|done].
  destruct (recorders s !! c) as [[]|] eqn:Hc; [done| |done].
  by apply recorder_stop_one_at_a_time.
Qed.

Lemma exec_one_at_a_time (ev : Event) (s : State) :
  (ev = Press → requests s = O) →
  one_at_a_time s → one_at_a_time (exec ev s).
Proof.
  intros Hpaced Hs. pose proof Hs as (Hrel & Hone & Hbtn).
  destruct ev as [|g|size| |i|]; cbn [exec].
  - destruct (isRecording s) eqn:Hrec; [by apply stop_if_active_one_at_a_time|].
    specialize (Hpaced eq_refl).
    symmetry in Hbtn. apply bool_decide_eq_false in Hbtn.
    unfold one_at_a_time, live in *. simpl. rewrite Hrec.
    split_and!; [done|lia|]. symmetry. by apply bool_decide_eq_false.
  - unfold answered. destruct (requests s) as [|n] eqn:Hreq; [done|].
    destruct g; unfold one_at_a_time, live in *; simpl.
    + rewrite filter_app, length_app, filter_cons, filter_nil.
      rewrite decide_True by done. simpl.
      split_and!; [done|lia|]. symmetry. apply bool_decide_eq_true. lia.
    + split_and!; [done|lia|done].
  - done.
  - by apply stop_if_active_one_at_a_time.
  - destruct (recorders s !! i) as [[]|] eqn:Hi; [done| |done].
    by apply recorder_stop_one_at_a_time.
  - destruct (stopQueue s) as [|i rest] eqn:Hq; [done|].
    unfold one_at_a_time, live in *. simpl in *. rewrite !length_app. simpl.
    split_and!; [lia|lia|]. symmetry. apply bool_decide_eq_false. lia.
Qed.

Lemma run_one_at_a_time (evs : list Event) (s : State) :
  paced evs s = true → one_at_a_time s → one_at_a_time (run evs s).
Proof.
  revert s. induction evs as [|ev evs IH]; intros s Hp Hs; [done|].
  cbn [paced] in Hp. apply andb_prop in Hp as [Hev Hp].
  apply (IH (exec ev s) Hp), exec_one_at_a_time; [|done].
  intros ->. by apply bool_decide_eq_true in Hev.
Qed.

(** [X18] Over the whole life of the component, as long as the record
    button is not pressed while a capture request is pending, and whatever
    the platform does and answers: the tracks have been released exactly as
    often as an artifact was downloaded; at most one capture request,
    recording or queued 'stop' event exists at a time; and the button shows
    "stop" exactly while a recorder records or awaits its 'stop' event. *)
Theorem record_button_never_overlaps (evs : list Event) :
  paced evs mounted = true →
  length (released (run evs mounted)) = length (downloads (run evs mounted)) ∧
  (requests (run evs mounted) + live (run evs mounted)
   + length (stopQueue (run evs mounted)) ≤ 1)%nat ∧
  (isRecording (run evs mounted) = true ↔
   (live (run evs mounted) + length (stopQueue (run evs mounted)) = 1)%nat).
Proof.
  intros Hp.
  assert (one_at_a_time mounted) as H0
    by (split_and!; [reflexivity|unfold live; simpl; lia|reflexivity]).
  destruct (run_one_at_a_time evs mounted Hp H0) as (Hrel & Hone & Hbtn).
  split_and!; [done|done|]. rewrite Hbtn. apply bool_decide_eq_true.
Qed.

End RecordingAsyncFacts.

Lemma record_button_never_overlaps_witness :
  length (RecordingAsync.released
    (RecordingAsync.run
       [RecordingAsync.Press; RecordingAsync.Answer true; RecordingAsync.Chunk 7;
        RecordingAsync.Press; RecordingAsync.StopDispatched;
        RecordingAsync.Press; RecordingAsync.Answer true]
       RecordingAsync.mounted))
  = length (RecordingAsync.downloads
    (RecordingAsync.run
       [RecordingAsync.Press; RecordingAsync.Answer true; RecordingAsync.Chunk 7;
        RecordingAsync.Press; RecordingAsync.StopDispatched;
        RecordingAsync.Press; RecordingAsync.Answer true]
       RecordingAsync.mounted)).
Proof.
  assert (RecordingAsync.paced
            [RecordingAsync.Press; RecordingAsync.Answer true; RecordingAsync.Chunk 7;
             RecordingAsync.Press; RecordingAsync.StopDispatched;
             RecordingAsync.Press; RecordingAsync.Answer true]
            RecordingAsync.mounted = true) as Hp by reflexivity.
  exact (proj1 (record_button_never_overlaps _ Hp)).
Defined.

(** Two presses before the platform answers: both requests are granted and
    two recorders record side by side, the first one out of reach of the
    button. *)
Example second_press_while_request_pending :
  let s := RecordingAsync.run
             [RecordingAsync.Press; RecordingAsync.Press;
              RecordingAsync.Answer true; RecordingAsync.Answer true]
             RecordingAsync.mounted in
  RecordingAsync.recorders s = [Recording.recording; Recording.recording] ∧
  RecordingAsync.current s = Some 1%nat ∧
  RecordingAsync.paced
    [RecordingAsync.Press; RecordingAsync.Press;
     RecordingAsync.Answer true; RecordingAsync.Answer true]
    RecordingAsync.mounted = false.
Proof. by vm_compute. Qed.

(** Two overlapping calls for a year that is not cached: the service is
    asked twice, and the second answer redirects the entry of the year. *)
Example overlapping_misses_redirect :
  let a3 := GeminiServiceAsync.run sample_parse
              [GeminiServiceAsync.Call 1000; GeminiServiceAsync.Call 1000;
               GeminiServiceAsync.Settles 0 (GeminiService.Response (Some "{}"))]
              GeminiServiceAsync.loaded in
  let a4 := GeminiServiceAsync.exec sample_parse
              (GeminiServiceAsync.Settles 0 (GeminiService.Response (Some "{}"))) a3 in
  GeminiService.cache (GeminiServiceAsync.world a3) !! 1000 = Some 0%nat ∧
  GeminiService.cache (GeminiServiceAsync.world a4) !! 1000 = Some 1%nat ∧
  GeminiService.calls (GeminiServiceAsync.world a4) = [1000; 1000] ∧
  GeminiServiceAsync.returned a4 = [0; 1]%nat.
Proof. by vm_compute. Qed.

(** ** The offline download *)

Section OfflineFacts.
Import OfflineManager.



End OfflineFacts.

(** ** Instances *)

Lemma service_asked_only_when_requested_witness :
  1050 ∈ GeminiService.calls GeminiService.loaded ∨ 1050 ∈ sample_years.
Proof.
  apply (service_asked_only_when_requested steady_service sample_parse
           sample_years GeminiService.loaded).
  change (1050 ∈ [1000; 1050]).
  apply list_elem_of_further, list_elem_of_here.
Defined.

Lemma notified_years_within_range_witness :
  1050 ≤ 1200 ∧ (0 ≤ 50 → 1000 ≤ 1050).
Proof.
  apply (notified_years_within_range 1000 1200 50
           [Playback.Click; Playback.Settle 0 true; Playback.Settle 0 true] 1050).
  change (1050 ∈ [1000; 1050]).
  apply list_elem_of_further, list_elem_of_here.
Defined.

Lemma playback_visits_whole_range_witness :
  Playback.notified
    (Playback.run (Playback.Click :: repeat (Playback.Settle 0 true) 10)
       (Playback.mounted 1000 1200 50))
  = [1000; 1050; 1100; 1150; 1200].
Proof.
  apply (playback_visits_whole_range 4 (Playback.mounted 1000 1200 50));
    unfold safe_integer; simpl; (reflexivity || lia).
Defined.

Lemma nonpositive_step_never_stops_witness :
  Playback.isPlayingRef
    (Playback.run (Playback.Click :: repeat (Playback.Settle 0 true) 4)
       (Playback.mounted 1000 1200 0)) = true ∧
  Playback.isPlaying
    (Playback.run (Playback.Click :: repeat (Playback.Settle 0 true) 4)
       (Playback.mounted 1000 1200 0)) = true ∧
  length (Playback.loops
    (Playback.run (Playback.Click :: repeat (Playback.Settle 0 true) 4)
       (Playback.mounted 1000 1200 0))) = 1%nat ∧
  Playback.notified
    (Playback.run (Playback.Click :: repeat (Playback.Settle 0 true) 4)
       (Playback.mounted 1000 1200 0))
  = [1000; 1000; 1000].
Proof.
  apply (nonpositive_step_never_stops 2 (Playback.mounted 1000 1200 0)).
  - reflexivity.
  - reflexivity.
  - simpl. lia.
  - simpl. lia.
Defined.

Lemma returning_loop_stops_all_witness :
  Playback.isPlayingRef
    (Playback.exec (Playback.Settle 0 false)
       (Playback.exec Playback.Click (Playback.mounted 1000 1200 50))) = false.
Proof.
  apply (returning_loop_stops_all
           (Playback.exec Playback.Click (Playback.mounted 1000 1200 50))
           0 false []).
  - simpl. lia.
  - reflexivity.
Defined.

Lemma unmount_cancels_playback_witness :
  Playback.notified
    (Playback.run [Playback.Settle 0 true; Playback.Settle 0 true]
       (unmount (Playback.exec Playback.Click (Playback.mounted 1000 1200 50))))
  = [1000].
Proof.
  apply (unmount_cancels_playback
           (Playback.exec Playback.Click (Playback.mounted 1000 1200 50))
           [Playback.Settle 0 true; Playback.Settle 0 true]).
  reflexivity.
Defined.

Lemma artifact_holds_delivered_chunks_witness :
  Recording.downloads
    (Recording.exec Recording.DispatchStop
       (Recording.run
          [Recording.DataAvailable 7; Recording.DataAvailable 0;
           Recording.StopRecording; Recording.DataAvailable 3]
          (Recording.handleStartRecording true Recording.mounted)))
  = [[7; 3]%nat].
Proof.
  apply (artifact_holds_delivered_chunks Recording.mounted
           [Recording.DataAvailable 7; Recording.DataAvailable 0;
            Recording.StopRecording; Recording.DataAvailable 3]).
  - split_and!; done.
  - reflexivity.
  - reflexivity.
Defined.

Lemma stop_when_idle_does_nothing_witness :
  Recording.downloads
    (Recording.run
       [Recording.StopRecording; Recording.TrackEnded; Recording.DispatchStop]
       Recording.mounted) = [].
Proof.
  apply (stop_when_idle_does_nothing Recording.mounted
           [Recording.StopRecording; Recording.TrackEnded;
            Recording.DispatchStop]).
  - split_and!; done.
  - reflexivity.
Defined.

(** ** The timeline component *)

Section TimelineFacts.
Import TimelineComponent.
Variables min max : Z.
Variable parseInt : string → option Z.

Local Abbreviation exec := (TimelineComponent.exec min max parseInt).
Local Abbreviation run := (TimelineComponent.run min max parseInt).

Lemma commit_normalised (val : option Z) (s : State) :
  commits_normalised min max s →
  commits_normalised min max (commit min max val s).
Proof.
  intros [Hc Hl]. split; simpl.
  - apply Forall_app. split; [done|]. apply Forall_singleton.
    split; [apply commitInput_nonzero|].
    intros Hle Hmax. by apply commitInput_bounds.
  - rewrite !length_app. simpl. lia.
Qed.

Lemma exec_normalised (ev : Event) (s : State) :
  commits_normalised min max s → commits_normalised min max (exec ev s).
Proof.
  intros Hs. pose proof Hs as [Hc Hl].
  destruct ev as [val| |key|text| |key|year]; simpl.
  - split; [done|]. simpl. rewrite length_app. simpl. lia.
  - by apply commit_normalised.
  - destruct (_ || _); [by apply commit_normalised|done].
  - done.
  - destruct (parseInt (inputValue s)); [by apply commit_normalised|done].
  - destruct (bool_decide _); [|done].
    destruct (parseInt (inputValue s)); [by apply commit_normalised|done].
  - done.
Qed.

(** [X22] Whatever the user does with the slider and the number input,
    every value handed to [onCommit] is not 0, and lies within the bounds
    when these are in order and the upper one is not 0; the slider, by
    contrast, reports every position it passes, 0 included, to [onChange]
    only. *)
Theorem timeline_commits_are_normalised (year : Z) (evs : list Event) (y : Z) :
  y ∈ commits (run evs (mounted year)) →
  y ≠ 0 ∧ (min ≤ max → max ≠ 0 → min ≤ y ≤ max).
Proof.
  intros Hy.
  assert (commits_normalised min max (run evs (mounted year))) as [Hc _].
  { assert (commits_normalised min max (mounted year)) as H0
      by (split; [constructor|simpl; lia]).
    clear Hy. revert H0. generalize (mounted year).
    induction evs as [|ev evs IH]; intros s Hs; [done|].
    by apply (IH (exec ev s)), exec_normalised. }
  by apply (proj1 (Forall_forall _ _) Hc).
Qed.

Lemma exec_synced (ev : Event) (s : State) :
  is_typing ev = false → text_synced s → text_synced (exec ev s).
Proof.
  unfold text_synced. intros Hev Hs.
  destruct ev as [val| |key|text| |key|year]; simpl; try done.
  - by destruct (_ || _).
  - by destruct (parseInt (inputValue s)).
  - destruct (bool_decide _); [|done]. by destruct (parseInt (inputValue s)).
Qed.

Lemma run_synced (evs : list Event) (s : State) :
  forallb (λ ev, negb (is_typing ev)) evs = true →
  text_synced s → text_synced (run evs s).
Proof.
  revert s. induction evs as [|ev evs IH]; intros s Hevs Hs; [done|].
  simpl in Hevs. apply andb_prop in Hevs as [Hev%negb_true_iff Hevs].
  by apply (IH (exec ev s)), exec_synced.
Qed.

(** [X23] The number input shows the decimal text of the year of the slider
    whenever the user is not in the middle of typing: from the mount on, as
    long as nothing is typed; and again from the moment the input loses the
    focus, whatever had been typed (a number is committed, anything else is
    thrown away and the year on display is restored). *)
Theorem timeline_text_follows_year (year : Z) (s : State) (evs : list Event) :
  forallb (λ ev, negb (is_typing ev)) evs = true →
  inputValue (run evs (mounted year)) = pretty (localYear (run evs (mounted year))) ∧
  inputValue (run (InputBlur :: evs) s)
  = pretty (localYear (run (InputBlur :: evs) s)) ∧
  (parseInt (inputValue s) = None →
   localYear (exec InputBlur s) = localYear s ∧
   commits (exec InputBlur s) = commits s ∧
   changes (exec InputBlur s) = changes s).
Proof.
  intros Hevs. split_and!.
  - by apply (run_synced evs (mounted year) Hevs).
  - apply (run_synced evs (exec InputBlur s) Hevs).
    unfold text_synced. simpl. by destruct (parseInt (inputValue s)).
  - intros Hp. simpl. by rewrite Hp.
Qed.

End TimelineFacts.

Lemma timeline_commits_are_normalised_witness :
  1 ≠ 0 ∧ (-2000 ≤ 2000 → 2000 ≠ 0 → -2000 ≤ 1 ≤ 2000).
Proof.
  apply (timeline_commits_are_normalised (-2000) 2000 digits_only 1000
           [TimelineComponent.InputChange "0"; TimelineComponent.InputBlur] 1).
  change (1 ∈ [1]). apply list_elem_of_here.
Defined.

Lemma timeline_text_follows_year_witness :
  TimelineComponent.inputValue
    (TimelineComponent.run (-2000) 2000 digits_only
       [TimelineComponent.InputBlur; TimelineComponent.SliderChange 0]
       (TimelineComponent.exec (-2000) 2000 digits_only
          (TimelineComponent.InputChange "abc") (TimelineComponent.mounted 1000)))
  = "0".
Proof.
  apply (timeline_text_follows_year (-2000) 2000 digits_only 1000
           (TimelineComponent.exec (-2000) 2000 digits_only
              (TimelineComponent.InputChange "abc") (TimelineComponent.mounted 1000))
           [TimelineComponent.SliderChange 0]).
  reflexivity.
Defined.
